(** * Synchro: password-change rate limiter and video-analysis orchestrator

    A shallow embedding of the two server-side utilities of the repository
    that carry behaviour worth stating:

    - the in-memory password-change rate limiter
      ([checkPasswordChangeRateLimit], [recordPasswordChangeAttempt],
      [requirePasswordChangeRateLimit], [resetPasswordChangeRateLimit]);
    - the Gemini helper ([extractJson], [analyzeFramesWithGemini]) and the
      background analysis job ([performAIAnalysis], [uploadFramesToStorage],
      [analyzeVideoInBackground]).

    Conventions of the embedding.  A JavaScript [number] holding a count or
    a millisecond timestamp is a [Z].  [Date.now()] is an explicit argument
    [now]: the limiter's functions are synchronous, and one call reads one
    clock value.  [Math.random()] is an explicit rational argument.  The
    response text of a model is the list of its UTF-16 code units; messages,
    paths and URLs are [string]s.  A function that can throw returns a sum,
    the thrown value on the left; calls to the outside (storage, the model,
    the frame extractor, the database insert) are fields of an environment
    record that give their outcome. *)

From stdpp Require Import gmap strings list pretty.
From Stdlib Require Import ZArith QArith Lia.

Local Open Scope Z_scope.
Set Warnings "-register-all".

(** ** Rate limiter *)

Module RateLimiter.

Record RateLimitEntry := mkEntry { count : Z; firstAttempt : Z }.

Definition MAX_ATTEMPTS : Z := 5.
Definition WINDOW_MS : Z := 15 * 60 * 1000.

(** [now - entry.firstAttempt > WINDOW_MS] *)
Definition expired (now : Z) (entry : RateLimitEntry) : bool :=
  WINDOW_MS <? now - firstAttempt entry.

(** The loop over [rateLimitStore.entries()] deletes every expired entry;
    deleting the entry being visited does not disturb a Map iteration. *)
Definition cleanupExpiredEntries (now : Z)
    (store : gmap string RateLimitEntry) : gmap string RateLimitEntry :=
  filter (λ kv, expired now kv.2 = false) store.

Record CheckResult := mkCheck {
  allowed : bool;
  remainingAttempts : Z;
  resetTime : Z
}.

(** [Math.random() < 0.1] *)
Definition sweeps (rnd : Q) : bool := negb (Qle_bool (1 # 10) rnd).

Definition checkPasswordChangeRateLimit (rnd : Q) (now : Z) (userId : string)
    (store : gmap string RateLimitEntry)
    : gmap string RateLimitEntry * CheckResult :=
  let store := if sweeps rnd then cleanupExpiredEntries now store else store in
  let fresh := mkCheck true MAX_ATTEMPTS (now + WINDOW_MS) in
  match store !! userId with
  | None => (store, fresh)
  | Some entry =>
      if expired now entry then (store, fresh)
      else (store,
            mkCheck (count entry <? MAX_ATTEMPTS)
                    (Z.max 0 (MAX_ATTEMPTS - count entry))
                    (firstAttempt entry + WINDOW_MS))
  end.

Definition recordPasswordChangeAttempt (now : Z) (userId : string)
    (store : gmap string RateLimitEntry) : gmap string RateLimitEntry :=
  match store !! userId with
  | None => <[userId := mkEntry 1 now]> store
  | Some entry =>
      if expired now entry then <[userId := mkEntry 1 now]> store
      else <[userId := mkEntry (count entry + 1) (firstAttempt entry)]> store
  end.

(** [Math.ceil(x / d)] on integers, for a positive divisor. *)
Definition ceil_div (x d : Z) : Z := - ((- x) / d).

(** The body and init of the response thrown by the guard.  The message
    text embeds [minutesUntilReset]; [resetTime] is kept in milliseconds
    rather than as its ISO rendering. *)
Record TooManyRequests := mkTooMany {
  minutesUntilReset : Z;
  body_resetTime : Z;
  body_remainingAttempts : Z;
  status : Z
}.

(** Left: the thrown 429 response.  Right: normal return, carrying the
    number written to the log, [remainingAttempts - 1]. *)
Definition requirePasswordChangeRateLimit (rnd : Q) (now : Z) (userId : string)
    (store : gmap string RateLimitEntry)
    : gmap string RateLimitEntry * (TooManyRequests + Z) :=
  let '(store, r) := checkPasswordChangeRateLimit rnd now userId store in
  if negb (allowed r) then
    (store, inl (mkTooMany (ceil_div (resetTime r - now) 60000)
                           (resetTime r) 0 429))
  else
    (recordPasswordChangeAttempt now userId store,
     inr (remainingAttempts r - 1)).

Definition resetPasswordChangeRateLimit (userId : string)
    (store : gmap string RateLimitEntry) : gmap string RateLimitEntry :=
  delete userId store.

(** *** Traces of calls

    The module's exported functions, as the requests of a running process
    invoke them, each at its own clock reading. *)

Inductive call :=
  | Check (userId : string) (rnd : Q)
  | Record_ (userId : string)
  | Require_ (userId : string) (rnd : Q)
  | Reset_ (userId : string).

Inductive response :=
  | Checked (r : CheckResult)
  | Recorded
  | Required (r : TooManyRequests + Z)
  | ResetDone.

Definition exec (now : Z) (c : call) (store : gmap string RateLimitEntry)
    : gmap string RateLimitEntry * response :=
  match c with
  | Check u rnd =>
      let '(s, r) := checkPasswordChangeRateLimit rnd now u store in
      (s, Checked r)
  | Record_ u => (recordPasswordChangeAttempt now u store, Recorded)
  | Require_ u rnd =>
      let '(s, r) := requirePasswordChangeRateLimit rnd now u store in
      (s, Required r)
  | Reset_ u => (resetPasswordChangeRateLimit u store, ResetDone)
  end.

Fixpoint run (tr : list (Z * call)) (store : gmap string RateLimitEntry)
    : gmap string RateLimitEntry * list response :=
  match tr with
  | [] => (store, [])
  | (now, c) :: tr' =>
      let '(s, r) := exec now c store in
      let '(s', rs) := run tr' s in
      (s', r :: rs)
  end.

(** An attempt of [a]: a direct record, or a pass through the guard. *)
Definition is_attempt (a : string) (c : call) : bool :=
  match c with
  | Record_ u | Require_ u _ => bool_decide (u = a)
  | _ => false
  end.

Definition is_reset (a : string) (c : call) : bool :=
  match c with
  | Reset_ u => bool_decide (u = a)
  | _ => false
  end.

Definition attempts (a : string) (tr : list (Z * call)) : nat :=
  length (filter (λ tc, is_attempt a tc.2 = true) tr).

(** Successive calls of the guard by one actor, each with its clock
    reading and its random draw. *)
Definition guard_calls (a : string) (l : list (Z * Q)) : list (Z * call) :=
  map (λ p, (p.1, Require_ a p.2)) l.

(** The entry of [a], read the way the code reads it: an expired entry
    counts as absent. *)
Definition live (now : Z) (a : string) (store : gmap string RateLimitEntry)
    : option RateLimitEntry :=
  match store !! a with
  | Some e => if expired now e then None else Some e
  | None => None
  end.

(** A trace with five attempts of one actor among other calls. *)
Definition five_attempts_trace : list (Z * call) :=
  [(0, Require_ "u1" (1 # 2)); (1000, Record_ "u1");
   (2000, Check "u1" (1 # 20)); (3000, Require_ "u2" (1 # 20));
   (4000, Require_ "u1" 0); (4500, Reset_ "u2");
   (5000, Require_ "u1" (3 # 10)); (6000, Require_ "u1" (9 # 10))].

(** The two answers of [check]. *)
Definition fresh_result (now : Z) : CheckResult :=
  mkCheck true MAX_ATTEMPTS (now + WINDOW_MS).

Definition window_result (e : RateLimitEntry) : CheckResult :=
  mkCheck (count e <? MAX_ATTEMPTS) (Z.max 0 (MAX_ATTEMPTS - count e))
          (firstAttempt e + WINDOW_MS).

(** The state of the entry of [a] after [k] attempts made in a window
    that opened no earlier than [t0]. *)
Definition after_attempts (a : string) (t0 : Z) (k : nat)
    (store : gmap string RateLimitEntry) : Prop :=
  match k with
  | O => live t0 a store = None
  | S _ => ∃ t1, t0 ≤ t1 ≤ t0 + WINDOW_MS ∧
                 store !! a = Some (mkEntry (Z.of_nat k) t1)
  end.

End RateLimiter.

(** ** JavaScript strings

    A string is the list of its UTF-16 code units.  [units] turns a
    literal of this file into one. *)

Module JsString.

Definition units (s : string) : list N :=
  map Ascii.N_of_ascii (String.list_ascii_of_string s).

(** A literal written with ['] where the text has a double quote. *)
Definition quoted (s : string) : list N :=
  map (λ c, if (c =? 39)%N then 34%N else c) (units s).

(** ASCII case folding: under the [i] flag (without [u]) a code unit at or
    above 128 never matches an ASCII letter, so the letters of [json] match
    exactly their two ASCII spellings. *)
Definition fold_case (c : N) : N :=
  if (65 <=? c)%N && (c <=? 90)%N then (c + 32)%N else c.

Definition same (c d : N) : bool := (c =? d)%N.
Definition same_ci (c d : N) : bool := (fold_case c =? fold_case d)%N.

Fixpoint starts_with (eq : N → N → bool) (pat s : list N) : bool :=
  match pat, s with
  | [], _ => true
  | _ :: _, [] => false
  | p :: pat', c :: s' => eq p c && starts_with eq pat' s'
  end.

(** Index of the leftmost occurrence of [pat] in [s]. *)
Fixpoint find (eq : N → N → bool) (pat s : list N) : option nat :=
  if starts_with eq pat s then Some O
  else match s with
       | [] => None
       | _ :: s' => S <$> find eq pat s'
       end.

(** [s.indexOf(c)] and [s.lastIndexOf(c)] for a one-unit [c]; [None] is
    the result [-1]. *)
Fixpoint indexOf (c : N) (s : list N) : option nat :=
  match s with
  | [] => None
  | x :: s' => if (x =? c)%N then Some O else S <$> indexOf c s'
  end.

Fixpoint lastIndexOf (c : N) (s : list N) : option nat :=
  match s with
  | [] => None
  | x :: s' =>
      match lastIndexOf c s' with
      | Some i => Some (S i)
      | None => if (x =? c)%N then Some O else None
      end
  end.

(** [s.slice(i, j)] for indices within [0 .. s.length]. *)
Definition slice (i j : nat) (s : list N) : list N :=
  take (j - i) (drop i s).

(** [s.replace(pat, empty)] for a pattern without the [g] flag: the
    leftmost occurrence goes. *)
Fixpoint remove_first (eq : N → N → bool) (pat s : list N) : list N :=
  if starts_with eq pat s then drop (length pat) s
  else match s with
       | [] => []
       | c :: s' => c :: remove_first eq pat s'
       end.

(** [s.replace(pat, empty)] with the [g] flag, for a non-empty pattern:
    occurrences go from left to right, without overlap.  [skip] counts the
    units of the current occurrence still to drop. *)
Fixpoint remove_all (pat s : list N) (skip : nat) : list N :=
  match s with
  | [] => []
  | c :: s' =>
      match skip with
      | S k => remove_all pat s' k
      | O => if starts_with same pat s
             then remove_all pat s' (length pat - 1)
             else c :: remove_all pat s' O
      end
  end.

End JsString.

(** ** JSON.parse

    The grammar of ECMA-404 as [JSON.parse] accepts it.  A number keeps its
    lexeme; a string holds its code units after unescaping; an object keeps
    its members in source order (a property read takes the last one of a
    name, as the built object does). *)

Module Json.
Import JsString.

Inductive json :=
  | JNull
  | JBool (b : bool)
  | JNumber (lexeme : list N)
  | JString (s : list N)
  | JArray (items : list json)
  | JObject (members : list (list N * json)).

Inductive parsed (A : Type) :=
  | Ok (a : A)
  | SyntaxError
  | OutOfFuel.
Arguments Ok {A} a.
Arguments SyntaxError {A}.
Arguments OutOfFuel {A}.

Definition is_ws (c : N) : bool :=
  ((c =? 32) || (c =? 9) || (c =? 10) || (c =? 13))%N.

Fixpoint skip_ws (s : list N) : list N :=
  match s with
  | c :: s' => if is_ws c then skip_ws s' else s
  | [] => []
  end.

Definition is_digit (c : N) : bool := ((48 <=? c) && (c <=? 57))%N.

Fixpoint digits (s : list N) : list N * list N :=
  match s with
  | c :: s' =>
      if is_digit c then let '(ds, r) := digits s' in (c :: ds, r)
      else ([], s)
  | [] => ([], [])
  end.

Definition hex_digit (c : N) : option N :=
  if is_digit c then Some (c - 48)%N
  else if ((97 <=? c) && (c <=? 102))%N then Some (c - 87)%N
  else if ((65 <=? c) && (c <=? 70))%N then Some (c - 55)%N
  else None.

Definition hex4 (a b c d : N) : option N :=
  match hex_digit a, hex_digit b, hex_digit c, hex_digit d with
  | Some a, Some b, Some c, Some d => Some (((a * 16 + b) * 16 + c) * 16 + d)%N
  | _, _, _, _ => None
  end.

(** The units after an opening quote, up to the closing one. *)
Fixpoint lex_string (s acc : list N) : option (list N * list N) :=
  match s with
  | [] => None
  | c :: r =>
      if (c =? 34)%N then Some (rev acc, r)
      else if (c =? 92)%N then
        match r with
        | [] => None
        | e :: r' =>
            if (e =? 34)%N then lex_string r' (34%N :: acc)
            else if (e =? 92)%N then lex_string r' (92%N :: acc)
            else if (e =? 47)%N then lex_string r' (47%N :: acc)
            else if (e =? 98)%N then lex_string r' (8%N :: acc)
            else if (e =? 102)%N then lex_string r' (12%N :: acc)
            else if (e =? 110)%N then lex_string r' (10%N :: acc)
            else if (e =? 114)%N then lex_string r' (13%N :: acc)
            else if (e =? 116)%N then lex_string r' (9%N :: acc)
            else if (e =? 117)%N then
              match r' with
              | h1 :: h2 :: h3 :: h4 :: r'' =>
                  match hex4 h1 h2 h3 h4 with
                  | Some u => lex_string r'' (u :: acc)
                  | None => None
                  end
              | _ => None
              end
            else None
        end
      else if (c <? 32)%N then None
      else lex_string r (c :: acc)
  end.

(** A number: an optional minus; zero, or a non-zero digit and more
    digits; an optional fraction of a dot and one or more digits; an
    optional exponent of [e] or [E], an optional sign, one or more digits. *)
Definition lex_number (s : list N) : option (list N * list N) :=
  let '(sign, s1) :=
    match s with
    | c :: r => if (c =? 45)%N then ([c], r) else ([], s)
    | [] => ([], s)
    end in
  let int :=
    match s1 with
    | c :: r =>
        if (c =? 48)%N then Some ([c], r)
        else if is_digit c then Some (digits s1)
        else None
    | [] => None
    end in
  match int with
  | None => None
  | Some (ip, s2) =>
      let frac :=
        match s2 with
        | c :: r =>
            if (c =? 46)%N then
              match digits r with
              | ([], _) => None
              | (ds, r') => Some (c :: ds, r')
              end
            else Some ([], s2)
        | [] => Some ([], s2)
        end in
      match frac with
      | None => None
      | Some (fp, s3) =>
          let exp :=
            match s3 with
            | c :: r =>
                if ((c =? 101) || (c =? 69))%N then
                  let '(sg, r1) :=
                    match r with
                    | d :: r' =>
                        if ((d =? 43) || (d =? 45))%N then ([d], r')
                        else ([], r)
                    | [] => ([], r)
                    end in
                  match digits r1 with
                  | ([], _) => None
                  | (ds, r2) => Some (c :: sg ++ ds, r2)
                  end
                else Some ([], s3)
            | [] => Some ([], s3)
            end in
          match exp with
          | None => None
          | Some (ep, s4) => Some (sign ++ ip ++ fp ++ ep, s4)
          end
      end
  end.

(** [s] without the prefix [pat], when it has it. *)
Fixpoint strip (pat s : list N) : option (list N) :=
  match pat, s with
  | [], _ => Some s
  | _ :: _, [] => None
  | p :: pat', c :: s' => if (p =? c)%N then strip pat' s' else None
  end.

Fixpoint parse_value (fuel : nat) (s : list N) : parsed (json * list N) :=
  match fuel with
  | O => OutOfFuel
  | S fuel =>
      match skip_ws s with
      | [] => SyntaxError
      | c :: r =>
          if (c =? 123)%N then
            match skip_ws r with
            | c' :: r' =>
                if (c' =? 125)%N then Ok (JObject [], r')
                else parse_members fuel r []
            | [] => SyntaxError
            end
          else if (c =? 91)%N then
            match skip_ws r with
            | c' :: r' =>
                if (c' =? 93)%N then Ok (JArray [], r')
                else parse_elements fuel r []
            | [] => SyntaxError
            end
          else if (c =? 34)%N then
            match lex_string r [] with
            | Some (str, r') => Ok (JString str, r')
            | None => SyntaxError
            end
          else if (c =? 45)%N || is_digit c then
            match lex_number (c :: r) with
            | Some (lx, r') => Ok (JNumber lx, r')
            | None => SyntaxError
            end
          else
            match strip (units "true") (c :: r) with
            | Some r' => Ok (JBool true, r')
            | None =>
                match strip (units "false") (c :: r) with
                | Some r' => Ok (JBool false, r')
                | None =>
                    match strip (units "null") (c :: r) with
                    | Some r' => Ok (JNull, r')
                    | None => SyntaxError
                    end
                end
            end
      end
  end
with parse_elements (fuel : nat) (s : list N) (acc : list json)
    : parsed (json * list N) :=
  match fuel with
  | O => OutOfFuel
  | S fuel =>
      match parse_value fuel s with
      | Ok (v, r) =>
          match skip_ws r with
          | c :: r' =>
              if (c =? 44)%N then parse_elements fuel r' (v :: acc)
              else if (c =? 93)%N then Ok (JArray (rev (v :: acc)), r')
              else SyntaxError
          | [] => SyntaxError
          end
      | SyntaxError => SyntaxError
      | OutOfFuel => OutOfFuel
      end
  end
with parse_members (fuel : nat) (s : list N) (acc : list (list N * json))
    : parsed (json * list N) :=
  match fuel with
  | O => OutOfFuel
  | S fuel =>
      match skip_ws s with
      | c :: r =>
          if (c =? 34)%N then
            match lex_string r [] with
            | Some (k, r1) =>
                match skip_ws r1 with
                | c1 :: r2 =>
                    if (c1 =? 58)%N then
                      match parse_value fuel r2 with
                      | Ok (v, r3) =>
                          match skip_ws r3 with
                          | c3 :: r4 =>
                              if (c3 =? 44)%N
                              then parse_members fuel r4 ((k, v) :: acc)
                              else if (c3 =? 125)%N
                              then Ok (JObject (rev ((k, v) :: acc)), r4)
                              else SyntaxError
                          | [] => SyntaxError
                          end
                      | SyntaxError => SyntaxError
                      | OutOfFuel => OutOfFuel
                      end
                    else SyntaxError
                | [] => SyntaxError
                end
            | None => SyntaxError
            end
          else SyntaxError
      | [] => SyntaxError
      end
  end.

(** Every call consumes a unit within two steps of the recursion. *)
Definition fuel_for (s : list N) : nat := 2 * length s + 2.

Definition JSON_parse (text : list N) : parsed json :=
  match parse_value (fuel_for text) text with
  | Ok (v, r) =>
      match skip_ws r with
      | [] => Ok v
      | _ :: _ => SyntaxError
      end
  | SyntaxError => SyntaxError
  | OutOfFuel => OutOfFuel
  end.

(** [o[name]] on a parsed value: [None] is [undefined]. *)
Fixpoint last_member (name : list N) (members : list (list N * json))
    : option json :=
  match members with
  | [] => None
  | (k, v) :: rest =>
      match last_member name rest with
      | Some v' => Some v'
      | None => if bool_decide (k = name) then Some v else None
      end
  end.

Definition property (name : string) (j : json) : option json :=
  match j with
  | JObject members => last_member (units name) members
  | _ => None
  end.

End Json.

(** ** Gemini helper: JSON extraction and model fallback *)

Module Gemini.
Import JsString Json.

(** A thrown value: whether it is an [Error] instance, its [message], and
    its numeric [status] property when it has one. *)
Record thrown := mkThrown {
  instanceof_Error : bool;
  message : string;
  status : option Z
}.

(** [new Error(msg)] *)
Definition Error (msg : string) : thrown := mkThrown true msg None.

Definition opening : list N := units "```json".
Definition closing : list N := units "```".

(** A match of the regular expression [```json[\s\S]*?```] (flag [i])
    that starts at the head of [s]: the opening fence, then the shortest
    run of units that a closing fence follows. *)
Definition codeBlock_at (s : list N) : option (list N) :=
  if starts_with same_ci opening s then
    match find same closing (drop 7 s) with
    | Some q => Some (take (7 + q + 3) s)
    | None => None
    end
  else None.

(** [text.match(...)]: the match at the leftmost position that has one. *)
Fixpoint match_codeBlock (text : list N) : option (list N) :=
  match codeBlock_at text with
  | Some m => Some m
  | None =>
      match text with
      | [] => None
      | _ :: text' => match_codeBlock text'
      end
  end.

(** [codeBlock[0]] with the first [```json] (flag [i]) and then every
    [```] (flag [g]) replaced by the empty string. *)
Definition inner_of (block : list N) : list N :=
  remove_all closing (remove_first same_ci opening block) 0.

(** The string handed to [JSON.parse]. *)
Definition json_source (text : list N) : list N :=
  match match_codeBlock text with
  | Some block => inner_of block
  | None =>
      match indexOf 123 text, lastIndexOf 125 text with
      | Some firstBrace, Some lastBrace =>
          slice firstBrace (lastBrace + 1) text
      | _, _ => text
      end
  end.

Definition extractJson (text : list N) : thrown + json :=
  match JSON_parse (json_source text) with
  | Ok v => inr v
  | _ => inl (Error "Failed to parse JSON from Gemini response")
  end.

(** The body of the [try] for one model: the call, the extraction, and
    the test [!json?.steps || !Array.isArray(json.steps)] (an array is
    truthy, so the test passes exactly on an array-valued [steps]). *)
Definition attempt (response : thrown + list N) : thrown + list json :=
  match response with
  | inl e => inl e
  | inr text =>
      match extractJson text with
      | inl e => inl e
      | inr j =>
          match property "steps" j with
          | Some (JArray steps) => inr steps
          | _ => inl (Error "Invalid JSON format from Gemini")
          end
      end
  end.

(** [error.status && error.status !== 503] *)
Definition rethrown (error : thrown) : bool :=
  match status error with
  | Some st => negb (st =? 0) && negb (st =? 503)
  | None => false
  end.

(** [models.indexOf(modelName)] *)
Fixpoint index_of (modelName : string) (models : list string) : Z :=
  match models with
  | [] => -1
  | m :: models' =>
      if bool_decide (m = modelName) then 0
      else match index_of modelName models' with
           | -1 => -1
           | i => i + 1
           end
  end.

Inductive event :=
  | Trying (modelName : string)
  | Succeeded (modelName : string)
  | Failed (modelName : string) (msg : string)
  | Wait (ms : Z).

(** The [for] loop over the models still to try.  [generateContent i m]
    is the outcome of the [i]-th call, made to model [m]: the response
    text, or the value the call (or reading its text) throws. *)
Fixpoint try_models (generateContent : nat → string → thrown + list N)
    (models : list string) (i : nat) (rest : list string)
    (lastError : option thrown) : list event * (thrown + list json) :=
  match rest with
  | [] => ([], inl (default (Error "All Gemini models failed") lastError))
  | modelName :: rest' =>
      match attempt (generateContent i modelName) with
      | inr steps => ([Trying modelName; Succeeded modelName], inr steps)
      | inl error =>
          if rethrown error then
            ([Trying modelName; Failed modelName (message error)], inl error)
          else
            let wait :=
              if index_of modelName models <? Z.of_nat (length models) - 1
              then [Wait 1000] else [] in
            let '(evs, r) :=
              try_models generateContent models (S i) rest' (Some error) in
            (Trying modelName :: Failed modelName (message error)
               :: wait ++ evs, r)
      end
  end.

(** The preference lists of the two revisions of the helper. *)
Definition default_models_a : list string :=
  ["gemini-2.0-flash"; "gemini-flash-latest"; "gemini-2.5-flash"].
Definition default_models_b : list string :=
  ["gemini-2.5-flash"; "gemini-2.5-flash-lite"; "gemini-2.0-flash"].

(** [options?.model ?? first] in front of the two fixed fallbacks. *)
Definition models_for (defaults : list string) (model : option string)
    : list string :=
  match defaults with
  | first :: fallbacks => default first model :: fallbacks
  | [] => []
  end.

Record GeminiEnv := mkGeminiEnv {
  GEMINI_API_KEY : option string;
  (** the rejection of [Promise.all] over the frame reads, if any *)
  readFrames : list string → option thrown;
  generateContent : nat → string → thrown + list N
}.

Definition analyzeFramesWithGemini (defaults : list string) (env : GeminiEnv)
    (framePaths : list string) (model : option string)
    : list event * (thrown + list json) :=
  match GEMINI_API_KEY env with
  | None | Some EmptyString => ([], inl (Error "GEMINI_API_KEY is not set"))
  | Some _ =>
      let models := models_for defaults model in
      match readFrames env framePaths with
      | Some e => ([], inl e)
      | None => try_models (generateContent env) models 0 models None
      end
  end.

(** The models the loop reached, in order. *)
Definition tried (evs : list event) : list string :=
  omap (λ ev, match ev with Trying m => Some m | _ => None end) evs.

(** The pauses the loop made, in order. *)
Definition waits (evs : list event) : list Z :=
  omap (λ ev, match ev with Wait ms => Some ms | _ => None end) evs.



(** The value thrown when the list is exhausted after the failure [e] of
    its last model, or with no model at all. *)
Definition exhausted (lastError : option thrown) : thrown :=
  default (Error "All Gemini models failed") lastError.

End Gemini.

(** ** Background analysis job *)

Module Analyzer.
Import JsString Json Gemini.

Record VideoAnalysisResult := mkResult {
  type : option json;
  action : option json;
  description : option json;
  confidence : option json;
  screenshot_url : option string
}.

(** Modelled from the spec: the status columns of the video and workflow
    tables, whose schema is not part of the repository snapshot.  The
    values are those of section 3, with [analyzing] from the workflow
    type of the team screen. *)
Inductive VideoStatus := uploaded | processing | completed | error.
Inductive WorkflowStatus := pending | analyzing | analyzed.

Record Video := mkVideo {
  video_status : VideoStatus;
  progress : Z;
  storage_path : option string;
  error_message : option string;
  video_completed_at : option Z
}.

Record Workflow := mkWorkflow {
  workflow_status : WorkflowStatus;
  completed_at : option Z
}.

Record StepRow := mkRow {
  workflow_id : Z;
  sequence_no : Z;
  row_type : option json;
  row_action : option json;
  row_description : option json;
  timestamp_label : option string;
  timestamp_seconds : option Z;
  row_confidence : option json;
  row_screenshot_url : option string
}.

Record DB := mkDB {
  workVideos : gmap Z Video;
  workWorkflows : gmap Z Workflow;
  workAnalysisSteps : list StepRow
}.

Record AnalyzerEnv := mkEnv {
  gemini : GeminiEnv;
  default_models : list string;
  SUPABASE_URL : string;
  (** the storage download and the write to a temporary file: the path of
      the file, or the thrown value *)
  fetchVideo : string → thrown + string;
  (** [extractFrames(filePath, { maxFrames })], whose source is not part
      of the repository snapshot: the frame paths, or the thrown value *)
  extractFrames : string → Z → thrown + list string;
  (** whether frame [i] at the given path is read and uploaded without a
      storage error *)
  uploadFrame : nat → string → bool;
  (** the value [db.insert(...).values(rows)] rejects with, if any *)
  insertRows : list StepRow → option thrown;
  (** successive readings of [new Date()] *)
  clock : nat → Z
}.

Inductive event :=
  | Model (ev : Gemini.event)
  | CleanupFrames
  | CleanupVideo.

Definition downloadVideoFromSupabase (env : AnalyzerEnv) (storagePath : string)
    : thrown + string :=
  if bool_decide (storagePath = EmptyString)
  then inl (Error "Invalid storage path")
  else fetchVideo env storagePath.

Definition publicUrl (env : AnalyzerEnv) (workflowId : Z) (i : nat) : string :=
  let fileName :=
    "workflow_" +:+ pretty workflowId +:+ "_step_" +:+ pretty (i + 1)%nat
      +:+ ".jpg" in
  let storagePath := "screenshots/" +:+ pretty workflowId +:+ "/" +:+ fileName in
  SUPABASE_URL env +:+ "/storage/v1/object/public/work-videos/" +:+ storagePath.

(** The loop of [uploadFramesToStorage] from index [i] on. *)
Fixpoint upload_from (env : AnalyzerEnv) (workflowId : Z) (i : nat)
    (framePaths : list string) : list (option string) :=
  match framePaths with
  | [] => []
  | framePath :: rest =>
      (if uploadFrame env i framePath
       then Some (publicUrl env workflowId i) else None)
      :: upload_from env workflowId (S i) rest
  end.

Definition uploadFramesToStorage (env : AnalyzerEnv)
    (framePaths : list string) (workflowId : Z) : list (option string) :=
  upload_from env workflowId 0 framePaths.


(** [screenshotUrls.filter(...)]: the URLs that are neither [null] nor
    the empty string. *)
Definition validUrls (screenshotUrls : list (option string)) : list string :=
  omap (λ url, match url with
               | Some u => if bool_decide (u = EmptyString) then None else Some u
               | None => None
               end) screenshotUrls.

(** [steps.map((s, index) => ...)] from [index] on.  Reading a property
    of [null] throws a [TypeError]; on any other value a missing property
    reads as [undefined]. *)
Fixpoint map_steps (valid : list string) (index : nat) (steps : list json)
    : thrown + list VideoAnalysisResult :=
  match steps with
  | [] => inr []
  | s :: rest =>
      match s with
      | JNull =>
          inl (Error "Cannot read properties of null (reading 'type')")
      | _ =>
          match map_steps valid (S index) rest with
          | inl e => inl e
          | inr results =>
              inr (mkResult (property "type" s) (property "action" s)
                            (property "description" s)
                            (property "confidence" s)
                            (valid !! index) :: results)
          end
      end
  end.

(** The merge stage: lines 186 to 202 of the service. *)
Definition merge (steps : list json) (screenshotUrls : list (option string))
    : thrown + list VideoAnalysisResult :=
  map_steps (validUrls screenshotUrls) 0 steps.


(** [catch (err) { throw new Error(`AI 분석 실패: ${errorMessage}`) }] *)
Definition wrap (err : thrown) : thrown :=
  Error ("AI 분석 실패: " +:+
         (if instanceof_Error err then message err else "알 수 없는 오류")).

Definition performAIAnalysis (env : AnalyzerEnv) (storagePath : option string)
    (workflowId : Z) : list event * (thrown + list VideoAnalysisResult) :=
  match storagePath with
  | None | Some EmptyString =>
      ([], inl (Error
         "비디오 저장 경로가 없습니다. 분석을 진행할 수 없습니다."))
  | Some storagePath =>
      let '(evs, r) :=
        match downloadVideoFromSupabase env storagePath with
        | inl e => ([], inl e)
        | inr filePath =>
            let '(evs, r) :=
              match extractFrames env filePath 10 with
              | inl e => ([], inl e)
              | inr paths =>
                  let '(evs, r) :=
                    match paths with
                    | [] =>
                        ([], inl (Error
                           "프레임 추출에 실패했습니다. 영상 파일을 확인해주세요."))
                    | _ :: _ =>
                        match analyzeFramesWithGemini
                                (default_models env) (gemini env) paths None with
                        | (evs, inl e) => (Model <$> evs, inl e)
                        | (evs, inr steps) =>
                            let screenshotUrls :=
                              uploadFramesToStorage env paths workflowId in
                            (Model <$> evs, merge steps screenshotUrls)
                        end
                    end in
                  (evs ++ [CleanupFrames], r)
              end in
            (evs ++ [CleanupVideo], r)
        end in
      match r with
      | inl err => (evs, inl (wrap err))
      | inr results => (evs, inr results)
      end
  end.

(** [db.update(workVideos).set(...).where(eq(video_id, videoId))] *)
Definition update_video (videoId : Z) (f : Video → Video) (db : DB) : DB :=
  mkDB (alter f videoId (workVideos db)) (workWorkflows db)
       (workAnalysisSteps db).

Definition update_workflow (workflowId : Z) (f : Workflow → Workflow)
    (db : DB) : DB :=
  mkDB (workVideos db) (alter f workflowId (workWorkflows db))
       (workAnalysisSteps db).

Definition insert_steps (rows : list StepRow) (db : DB) : DB :=
  mkDB (workVideos db) (workWorkflows db) (workAnalysisSteps db ++ rows).

(** The rows built from the results; no result of [performAIAnalysis]
    carries [timestamp_seconds], so both timestamp columns are null. *)
Definition rows_of (workflowId : Z) (results : list VideoAnalysisResult)
    : list StepRow :=
  imap (λ index result,
          mkRow workflowId (Z.of_nat index + 1) (type result) (action result)
                (description result) None None (confidence result)
                (screenshot_url result)) results.

(** The [catch] block of the job. *)
Definition fail_job (videoId workflowId : Z) (err : thrown) (db : DB)
    : list DB :=
  let db2 := update_workflow workflowId
               (λ w, mkWorkflow pending (completed_at w)) db in
  let db3 := update_video videoId
               (λ v, mkVideo error (progress v) (storage_path v)
                       (Some (if instanceof_Error err then message err
                              else "Unknown error"))
                       (video_completed_at v)) db2 in
  [db2; db3].

(** The job, as the successive states of the database after each write. *)
Definition analyzeVideoInBackground (env : AnalyzerEnv)
    (videoId workflowId : Z) (db : DB) : list DB :=
  let db1 := update_video videoId
               (λ v, mkVideo processing 10 (storage_path v) (error_message v)
                       (video_completed_at v)) db in
  let outcome : thrown + list StepRow :=
    match workVideos db1 !! videoId with
    | None => inl (Error "Video not found")
    | Some video =>
        match performAIAnalysis env (storage_path video) workflowId with
        | (_, inl e) => inl e
        | (_, inr analysisResults) => inr (rows_of workflowId analysisResults)
        end
    end in
  match outcome with
  | inl e => db1 :: fail_job videoId workflowId e db1
  | inr steps =>
      match insertRows env steps with
      | Some e => db1 :: fail_job videoId workflowId e db1
      | None =>
          let db2 := insert_steps steps db1 in
          let db3 := update_workflow workflowId
                       (λ w, mkWorkflow analyzed (Some (clock env 0%nat))) db2 in
          let db4 := update_video videoId
                       (λ v, mkVideo completed 100 (storage_path v)
                               (error_message v) (Some (clock env 1%nat))) db3 in
          [db1; db2; db3; db4]
      end
  end.



(** The outcome of the [try] block of the job for the video row [v]: the
    rows inserted, or the value caught. *)
Definition job_outcome (env : AnalyzerEnv) (workflowId : Z) (v : Video)
    : thrown + list StepRow :=
  match performAIAnalysis env (storage_path v) workflowId with
  | (_, inl e) => inl e
  | (_, inr results) =>
      match insertRows env (rows_of workflowId results) with
      | Some e => inl e
      | None => inr (rows_of workflowId results)
      end
  end.



(** A job of three frames: the model answers with three steps, the
    upload of the second frame fails. *)
Definition example_response : list N :=
  quoted ("{'steps':[{'type':'navigate','action':'Open page','confidence':95},"
          +:+ "{'type':'input','action':'Type name','confidence':90},"
          +:+ "{'type':'click','action':'Press save','confidence':85}]}").

Definition example_steps : list json :=
  match attempt (inr example_response) with
  | inr steps => steps
  | inl _ => []
  end.

Definition example_frames : list string :=
  ["/tmp/frames/001.jpg"; "/tmp/frames/002.jpg"; "/tmp/frames/003.jpg"].

Definition example_env : AnalyzerEnv :=
  mkEnv (mkGeminiEnv (Some "key") (λ _, None) (λ _ _, inr example_response))
        default_models_b "https://p.supabase.co"
        (λ _, inr "/tmp/video-1/a.mp4")
        (λ _ _, inr example_frames)
        (λ i _, negb (i =? 1)%nat)
        (λ _, None)
        (λ n, 1700000000000 + Z.of_nat n).


Definition example_db : DB :=
  mkDB {[ 3 := mkVideo uploaded 0 (Some "videos/a.mp4") None None ]}
       {[ 7 := mkWorkflow pending None ]}
       [].

End Analyzer.

(** ** Rate limiter: invariants of a running store *)

Module LimiterTraces.
Import RateLimiter.

Definition actor_of (c : call) : string :=
  match c with
  | Check u _ | Record_ u | Require_ u _ | Reset_ u => u
  end.

Definition is_record (c : call) : bool :=
  match c with
  | Record_ _ => true
  | _ => false
  end.

(** Every count lies between one and the limit. *)
Definition bounded (store : gmap string RateLimitEntry) : Prop :=
  ∀ a e, store !! a = Some e → 1 ≤ count e ≤ MAX_ATTEMPTS.

(** No window opened after the instant [t]. *)
Definition timely (t : Z) (store : gmap string RateLimitEntry) : Prop :=
  ∀ a e, store !! a = Some e → firstAttempt e ≤ t.

End LimiterTraces.

(** ** Change-password endpoint

    The [action] of the endpoint that the limiter guards.  A request comes
    with what the outside answers to it: the two route guards and the
    password schema, whose sources are not part of the repository
    snapshot, are fields of the request record, as are the answers of the
    authentication service. *)

Module ChangePassword.
Import RateLimiter.

Record User := mkUser { id : string; email : string }.

Record Request := mkRequest {
  (** the status of the response [requireMethod("POST")] throws, if any *)
  method_guard : option Z;
  (** the status of the response [requireAuthentication] throws, if any *)
  auth_guard : option Z;
  (** [client.auth.getUser()] *)
  user : option User;
  (** [Object.fromEntries(formData)], for string entries *)
  form : gmap string string;
  (** [passwordSchema] on a field: the parsed value, or [None] on an issue *)
  passwordSchema : option string → option string;
  (** [signInWithPassword({ email, password })] returns no error *)
  signInWithPassword : string → string → bool;
  (** [updateUser({ password })] returns no error *)
  updateUser : string → bool
}.

(** The calls made to the authentication service with a password. *)
Inductive event :=
  | SignIn (email password : string)
  | UpdateUser (password : string).

Inductive response :=
  | GuardThrew (status : Z)
  | NoUser                          (* 401 *)
  | TooMany (r : TooManyRequests)   (* thrown, 429 *)
  | FieldErrors                     (* 400, the flattened schema errors *)
  | CurrentPasswordRequired         (* 400 *)
  | CurrentPasswordMismatch         (* 400 *)
  | UpdateFailed                    (* 400 *)
  | Changed.                        (* success *)

(** [changePasswordSchema.safeParse]: both password fields pass the
    schema and their parsed values are equal. *)
Definition safeParse (req : Request) : option string :=
  match passwordSchema req (form req !! "password"),
        passwordSchema req (form req !! "confirmPassword") with
  | Some password, Some confirmPassword =>
      if bool_decide (password = confirmPassword) then Some password else None
  | _, _ => None
  end.

Definition action (req : Request) (rnd : Q) (now : Z)
    (store : gmap string RateLimitEntry)
    : gmap string RateLimitEntry * list event * response :=
  match method_guard req with
  | Some st => (store, [], GuardThrew st)
  | None =>
  match auth_guard req with
  | Some st => (store, [], GuardThrew st)
  | None =>
  match user req with
  | None => (store, [], NoUser)
  | Some u =>
  match requirePasswordChangeRateLimit rnd now (id u) store with
  | (store, inl r) => (store, [], TooMany r)
  | (store, inr _) =>
      let hasExistingPassword :=
        bool_decide (form req !! "hasExistingPassword" = Some "true") in
      match safeParse req with
      | None => (store, [], FieldErrors)
      | Some password =>
          let update (evs : list event) :=
            if updateUser req password
            then (resetPasswordChangeRateLimit (id u) store,
                  evs ++ [UpdateUser password], Changed)
            else (store, evs ++ [UpdateUser password], UpdateFailed) in
          if hasExistingPassword then
            match form req !! "currentPassword" with
            | None | Some EmptyString => (store, [], CurrentPasswordRequired)
            | Some currentPassword =>
                if signInWithPassword req (email u) currentPassword
                then update [SignIn (email u) currentPassword]
                else (store, [SignIn (email u) currentPassword],
                      CurrentPasswordMismatch)
            end
          else update []
      end
  end end end end.

(** Requests served one after the other by one process. *)
Fixpoint serve (reqs : list (Request * Q * Z))
    (store : gmap string RateLimitEntry)
    : gmap string RateLimitEntry * list (list event * response) :=
  match reqs with
  | [] => (store, [])
  | (req, rnd, now) :: reqs' =>
      let '(s, evs, resp) := action req rnd now store in
      let '(s', out) := serve reqs' s in
      (s', (evs, resp) :: out)
  end.

Definition is_signIn (ev : event) : bool :=
  match ev with SignIn _ _ => true | _ => false end.

(** The request got past the route guards and the limiter. *)
Definition passed (resp : response) : bool :=
  match resp with
  | GuardThrew _ | NoUser | TooMany _ => false
  | _ => true
  end.

(** The password checks and updates a run of requests caused. *)
Definition calls (out : list (list event * response)) : list event :=
  concat (fst <$> out).


End ChangePassword.

(** ** The temporary file of a download

    [downloadVideoFromSupabase] writes the video to a file of a fresh
    temporary directory.  The name of the file is computed from
    [path.basename(storagePath)], a function of the Node library: the
    definitions below start from its value [base]. *)

Module Storage.
Import JsString.

(** A unit of the class [a-zA-Z0-9._-]. *)
Definition safe (c : N) : bool :=
  ((97 <=? c) && (c <=? 122) || (65 <=? c) && (c <=? 90)
   || (48 <=? c) && (c <=? 57) || (c =? 46) || (c =? 95) || (c =? 45))%N.

(** [base.replace(/[^a-zA-Z0-9._-]/g, "_")]: without the [u] flag the
    pattern is tried on every code unit. *)
Definition sanitize (base : list N) : list N :=
  map (λ c, if safe c then c else 95%N) base.

(** [fileName || `video_${Date.now()}.mp4`] *)
Definition tempFileName (base : list N) (now : Z) : list N :=
  match sanitize base with
  | [] => units ("video_" +:+ pretty now +:+ ".mp4")
  | fileName => fileName
  end.

End Storage.

(** * Properties *)

(** ** Rate limiter *)

Section RateLimiterFacts.
Import RateLimiter.
Implicit Types (store : gmap string RateLimitEntry) (a b : string).
Implicit Types (now t : Z) (rnd : Q) (e : RateLimitEntry).

Lemma cleanup_lookup now store a :
  cleanupExpiredEntries now store !! a = live now a store.
Proof.
  unfold cleanupExpiredEntries, live.
  destruct (store !! a) as [e|] eqn:Ha.
  - destruct (expired now e) eqn:He.
    + apply map_lookup_filter_None_2. right. intros e' He'. simpl.
      rewrite Ha in He'. injection He' as <-. congruence.
    + apply map_lookup_filter_Some_2; done.
  - apply map_lookup_filter_None_2. by left.
Qed.

Lemma live_Some now a store e :
  live now a store = Some e ↔ store !! a = Some e ∧ expired now e = false.
Proof.
  unfold live. destruct (store !! a) as [e'|]; [|split; [done|intros [? _]; done]].
  destruct (expired now e') eqn:He; split.
  - done.
  - intros [[= <-] ?]. congruence.
  - intros [= <-]. done.
  - intros [[= <-] _]. done.
Qed.

Lemma live_mono t t' a store :
  t ≤ t' → live t a store = None → live t' a store = None.
Proof.
  unfold live, expired. destruct (store !! a) as [e|]; [|done].
  intros Hle. destruct (Z.ltb_spec WINDOW_MS (t - firstAttempt e)); [|done].
  intros _. destruct (Z.ltb_spec WINDOW_MS (t' - firstAttempt e)); [done|lia].
Qed.

(** What a sweep at [now] can do to the entry of [a]. *)
Lemma sweep_lookup rnd now store a :
  let store' := if sweeps rnd then cleanupExpiredEntries now store else store in
  store' !! a = store !! a ∨ (store' !! a = None ∧ live now a store = None).
Proof.
  simpl. destruct (sweeps rnd); [|by left].
  rewrite cleanup_lookup. unfold live.
  destruct (store !! a) as [e|]; [|by left].
  destruct (expired now e); [by right|by left].
Qed.

Lemma sweep_live rnd now store a :
  live now a (if sweeps rnd then cleanupExpiredEntries now store else store)
  = live now a store.
Proof.
  destruct (sweeps rnd); [|done].
  unfold live at 1. rewrite cleanup_lookup.
  destruct (live now a store) as [e|] eqn:He; [|done].
  apply live_Some in He as [_ ->]. done.
Qed.

Lemma check_result rnd now a store :
  (checkPasswordChangeRateLimit rnd now a store).2 =
  match live now a store with
  | None => fresh_result now
  | Some e => window_result e
  end.
Proof.
  unfold checkPasswordChangeRateLimit.
  rewrite <- (sweep_live rnd now store a).
  set (s := if sweeps rnd then _ else _). unfold live.
  destruct (s !! a) as [e|]; [|done]. by destruct (expired now e).
Qed.

Lemma check_store rnd now a store :
  (checkPasswordChangeRateLimit rnd now a store).1 =
  if sweeps rnd then cleanupExpiredEntries now store else store.
Proof.
  unfold checkPasswordChangeRateLimit.
  set (s := if sweeps rnd then _ else _).
  destruct (s !! a) as [e|]; [|done]. by destruct (expired now e).
Qed.

Lemma record_lookup now a store :
  recordPasswordChangeAttempt now a store !! a =
  Some match live now a store with
       | None => mkEntry 1 now
       | Some e => mkEntry (count e + 1) (firstAttempt e)
       end.
Proof.
  unfold recordPasswordChangeAttempt, live.
  destruct (store !! a) as [e|]; [destruct (expired now e)|];
    by rewrite lookup_insert_eq.
Qed.

Lemma record_lookup_ne now a b store :
  a ≠ b → recordPasswordChangeAttempt now a store !! b = store !! b.
Proof.
  intros Hne. unfold recordPasswordChangeAttempt.
  destruct (store !! a) as [e|]; [destruct (expired now e)|];
    by rewrite lookup_insert_ne.
Qed.

Lemma require_unfold rnd now a store :
  requirePasswordChangeRateLimit rnd now a store =
  let s := (checkPasswordChangeRateLimit rnd now a store).1 in
  let r := (checkPasswordChangeRateLimit rnd now a store).2 in
  if allowed r then
    (recordPasswordChangeAttempt now a s, inr (remainingAttempts r - 1))
  else
    (s, inl (mkTooMany (ceil_div (resetTime r - now) 60000) (resetTime r) 0 429)).
Proof.
  unfold requirePasswordChangeRateLimit.
  destruct (checkPasswordChangeRateLimit rnd now a store) as [s r]. simpl.
  by destruct (allowed r).
Qed.

Lemma after_attempts_live a t0 k store t :
  after_attempts a t0 k store → t0 ≤ t ≤ t0 + WINDOW_MS →
  match k with
  | O => live t a store = None
  | S _ => ∃ t1, t0 ≤ t1 ≤ t0 + WINDOW_MS ∧
                 live t a store = Some (mkEntry (Z.of_nat k) t1)
  end.
Proof.
  destruct k as [|k]; simpl.
  - intros H Ht. eapply live_mono; [|exact H]. lia.
  - intros (t1 & Ht1 & Hs) Ht. exists t1. split; [done|].
    apply live_Some. split; [done|]. unfold expired; simpl.
    apply Z.ltb_ge. lia.
Qed.

Lemma after_attempts_sweep a t0 k store rnd t :
  after_attempts a t0 k store → t0 ≤ t ≤ t0 + WINDOW_MS →
  after_attempts a t0 k
    (if sweeps rnd then cleanupExpiredEntries t store else store).
Proof.
  intros H Ht. pose proof (after_attempts_live _ _ _ _ _ H Ht) as Hl.
  destruct (sweep_lookup rnd t store a) as [Heq | [Hn Hlive]].
  - destruct k; simpl in *.
    + unfold live in *. by rewrite Heq.
    + destruct H as (t1 & ? & ?). exists t1. split; [done|]. by rewrite Heq.
  - destruct k; simpl in *.
    + unfold live. by rewrite Hn.
    + destruct Hl as (t1 & _ & Hl). congruence.
Qed.

Lemma after_attempts_record a t0 k store t :
  after_attempts a t0 k store → t0 ≤ t ≤ t0 + WINDOW_MS →
  after_attempts a t0 (S k) (recordPasswordChangeAttempt t a store).
Proof.
  intros H Ht. pose proof (after_attempts_live _ _ _ _ _ H Ht) as Hl.
  simpl. rewrite record_lookup. destruct k.
  - rewrite Hl. by exists t.
  - destruct Hl as (t1 & Ht1 & ->). exists t1. split; [done|]. simpl.
    do 2 f_equal. lia.
Qed.

Lemma after_attempts_ext a t0 k store store' :
  store' !! a = store !! a →
  after_attempts a t0 k store → after_attempts a t0 k store'.
Proof.
  intros Heq. destruct k; simpl; unfold live; by rewrite Heq.
Qed.

Lemma check_allowed_below a t0 k store rnd t :
  after_attempts a t0 k store → t0 ≤ t ≤ t0 + WINDOW_MS →
  allowed (checkPasswordChangeRateLimit rnd t a store).2
  = (Z.of_nat k <? MAX_ATTEMPTS).
Proof.
  intros H Ht. pose proof (after_attempts_live _ _ _ _ _ H Ht) as Hl.
  rewrite check_result. destruct k.
  - by rewrite Hl.
  - by destruct Hl as (t1 & _ & ->).
Qed.

Lemma exec_after_attempts a t0 k store t c :
  after_attempts a t0 k store → t0 ≤ t ≤ t0 + WINDOW_MS →
  is_reset a c = false →
  (is_attempt a c = true → (k < Z.to_nat MAX_ATTEMPTS)%nat) →
  after_attempts a t0 (if is_attempt a c then S k else k) (exec t c store).1.
Proof.
  intros H Ht Hr Hk. destruct c as [u rnd | u | u rnd | u]; simpl in *.
  - destruct (checkPasswordChangeRateLimit rnd t u store) as [s r] eqn:E.
    simpl. change s with (s, r).1. rewrite <- E, check_store.
    by apply after_attempts_sweep.
  - case_bool_decide as Hu.
    + subst u. by apply after_attempts_record.
    + eapply after_attempts_ext; [|exact H]. by apply record_lookup_ne.
  - destruct (requirePasswordChangeRateLimit rnd t u store) as [s r] eqn:E.
    simpl. change s with (s, r).1. rewrite <- E, require_unfold. simpl.
    rewrite check_store.
    pose proof (after_attempts_sweep _ _ _ _ rnd _ H Ht) as Hs.
    case_bool_decide as Hu.
    + subst u.
      rewrite (check_allowed_below a t0 k store rnd t H Ht).
      destruct (Z.ltb_spec (Z.of_nat k) MAX_ATTEMPTS) as [_|Hge].
      * simpl. by apply after_attempts_record.
      * specialize (Hk eq_refl). unfold MAX_ATTEMPTS in *. lia.
    + destruct (allowed _); simpl; [|done].
      eapply after_attempts_ext; [|exact Hs]. by apply record_lookup_ne.
  - case_bool_decide as Hu; [done|].
    eapply after_attempts_ext; [|exact H].
    unfold resetPasswordChangeRateLimit. by apply lookup_delete_ne.
Qed.

Lemma attempts_cons a t c tr :
  attempts a ((t, c) :: tr)
  = if is_attempt a c then S (attempts a tr) else attempts a tr.
Proof.
  unfold attempts. rewrite filter_cons. simpl.
  destruct (is_attempt a c); by case_decide.
Qed.

Lemma run_after_attempts a t0 tr : ∀ k store,
  after_attempts a t0 k store →
  Forall (λ tc, (t0 ≤ tc.1 ≤ t0 + WINDOW_MS) ∧ is_reset a tc.2 = false) tr →
  (k + attempts a tr ≤ Z.to_nat MAX_ATTEMPTS)%nat →
  after_attempts a t0 (k + attempts a tr) (run tr store).1.
Proof.
  induction tr as [|[t c] tr IH]; intros k store H Hall Hle.
  - simpl. unfold attempts. simpl. by rewrite Nat.add_0_r.
  - apply Forall_cons in Hall as [[Ht Hr] Hall]. simpl in Ht, Hr.
    rewrite attempts_cons in *. simpl.
    destruct (exec t c store) as [s r] eqn:E.
    destruct (run tr s) as [s' rs] eqn:E'. simpl.
    change s' with (s', rs).1. rewrite <- E'.
    pose proof (exec_after_attempts a t0 k store t c H Ht Hr) as Hs.
    rewrite E in Hs. simpl in Hs.
    destruct (is_attempt a c).
    + replace (k + S (attempts a tr))%nat with (S k + attempts a tr)%nat by lia.
      apply IH; [apply Hs; intros _; lia|done|lia].
    + apply IH; [apply Hs; done|done|lia].
Qed.

Lemma ceil_div_bounds x d :
  0 < d → x ≤ d * ceil_div x d < x + d.
Proof.
  intros Hd. unfold ceil_div.
  pose proof (Z.mul_div_le (- x) d Hd).
  pose proof (Z.mul_succ_div_gt (- x) d Hd). lia.
Qed.

(** C4.  Once exactly [MAX_ATTEMPTS] = 5 attempts of an actor have been
    recorded inside one window of [WINDOW_MS] = 15 minutes (directly or
    through the guard, interleaved with any calls for other actors and any
    checks), [check] answers [allowed = false], and the next pass through
    the guard throws the 429 response, which carries the reset instant and
    the whole minutes left until it. *)
Theorem limit_reached_after_max_attempts a store tr t0 now rnd rnd' :
  live t0 a store = None →
  Forall (λ tc, (t0 ≤ tc.1 ≤ t0 + WINDOW_MS) ∧ is_reset a tc.2 = false) tr →
  attempts a tr = Z.to_nat MAX_ATTEMPTS →
  t0 ≤ now ≤ t0 + WINDOW_MS →
  let store' := (run tr store).1 in
  let r := (checkPasswordChangeRateLimit rnd now a store').2 in
  allowed r = false ∧
  ∃ resp,
    (requirePasswordChangeRateLimit rnd' now a store').2 = inl resp ∧
    status resp = 429 ∧
    body_remainingAttempts resp = 0 ∧
    body_resetTime resp = resetTime r ∧
    minutesUntilReset resp = ceil_div (resetTime r - now) 60000 ∧
    resetTime r - now ≤ 60000 * minutesUntilReset resp
      < resetTime r - now + 60000.
Proof.
  intros Hfresh Hall Hn Hnow store' r.
  assert (Hinv : after_attempts a t0 (Z.to_nat MAX_ATTEMPTS) store').
  { rewrite <- Hn. apply (run_after_attempts a t0 tr 0%nat store); [done|done|].
    rewrite Hn. simpl. lia. }
  pose proof (after_attempts_live _ _ _ _ _ Hinv Hnow) as Hl.
  change (Z.to_nat MAX_ATTEMPTS) with 5%nat in Hl.
  destruct Hl as (t1 & Ht1 & Hl).
  assert (Hr : r = window_result (mkEntry 5 t1)).
  { subst r. rewrite check_result, Hl. done. }
  assert (Hr' : (checkPasswordChangeRateLimit rnd' now a store').2
                = window_result (mkEntry 5 t1)).
  { rewrite check_result, Hl. done. }
  split; [by rewrite Hr|].
  rewrite require_unfold. simpl. rewrite Hr'. simpl.
  eexists. split; [reflexivity|]. simpl. rewrite Hr. simpl.
  repeat split; try done; apply ceil_div_bounds; lia.
Qed.

Lemma limit_reached_after_max_attempts_witness :
  let store' := (run five_attempts_trace ∅).1 in
  let r := (checkPasswordChangeRateLimit (1 # 2) 7000 "u1" store').2 in
  allowed r = false ∧
  ∃ resp,
    (requirePasswordChangeRateLimit (1 # 20) 7000 "u1" store').2 = inl resp ∧
    status resp = 429 ∧
    body_remainingAttempts resp = 0 ∧
    body_resetTime resp = resetTime r ∧
    minutesUntilReset resp = ceil_div (resetTime r - 7000) 60000 ∧
    resetTime r - 7000 ≤ 60000 * minutesUntilReset resp
      < resetTime r - 7000 + 60000.
Proof.
  apply (limit_reached_after_max_attempts "u1" ∅ five_attempts_trace 0 7000 (1 # 2) (1 # 20)).
  - reflexivity.
  - unfold five_attempts_trace. repeat (apply Forall_cons; split; [simpl; split; [unfold WINDOW_MS; lia | reflexivity] |]). apply Forall_nil. done.
  - vm_compute. reflexivity.
  - unfold WINDOW_MS. lia.
Defined.

(** C5.  [check] treats an absent entry, or one whose age exceeds the
    window, as a fresh window: allowed, [MAX_ATTEMPTS] remaining, reset at
    [now + WINDOW_MS]; otherwise it reports [count < MAX_ATTEMPTS],
    [max 0 (MAX_ATTEMPTS - count)] and [firstAttempt + WINDOW_MS].  It
    never creates or changes an entry.  In particular a recorded attempt
    followed by a clock advance past the window gives the fresh answer. *)
Theorem check_spec a store now rnd t :
  let '(store', r) := checkPasswordChangeRateLimit rnd now a store in
  r = match store !! a with
      | None => mkCheck true MAX_ATTEMPTS (now + WINDOW_MS)
      | Some e =>
          if WINDOW_MS <? now - firstAttempt e
          then mkCheck true MAX_ATTEMPTS (now + WINDOW_MS)
          else mkCheck (count e <? MAX_ATTEMPTS)
                       (Z.max 0 (MAX_ATTEMPTS - count e))
                       (firstAttempt e + WINDOW_MS)
      end
  ∧ store' ⊆ store
  ∧ (store !! a = None → store' !! a = None)
  ∧ ((∀ e, store !! a = Some e → firstAttempt e ≤ t) →
     WINDOW_MS < now - t →
     (checkPasswordChangeRateLimit rnd now a
        (recordPasswordChangeAttempt t a store)).2
     = mkCheck true MAX_ATTEMPTS (now + WINDOW_MS)).
Proof.
  destruct (checkPasswordChangeRateLimit rnd now a store) as [store' r] eqn:E.
  assert (Hr : r = (store', r).2) by done.
  assert (Hs : store' = (store', r).1) by done.
  rewrite <- E in Hr, Hs. rewrite check_result in Hr. rewrite check_store in Hs.
  assert (Hsub : store' ⊆ store).
  { rewrite Hs. destruct (sweeps rnd); [apply map_filter_subseteq|done]. }
  split; [|split; [done|split]].
  - rewrite Hr. unfold live, expired.
    destruct (store !! a) as [e|]; [|done].
    by destruct (WINDOW_MS <? now - firstAttempt e).
  - intros Hnone. eapply lookup_weaken_None; done.
  - intros Hwf Hadv. rewrite check_result.
    assert (Hl : live now a (recordPasswordChangeAttempt t a store) = None);
      [|by rewrite Hl].
    unfold live. rewrite record_lookup. unfold expired.
    destruct (live t a store) as [e|] eqn:Hlt; simpl.
    + apply live_Some in Hlt as [Hlk _]. apply Hwf in Hlk.
      destruct (Z.ltb_spec WINDOW_MS (now - firstAttempt e)); [done|lia].
    + destruct (Z.ltb_spec WINDOW_MS (now - t)); [done|lia].
Qed.

Lemma check_spec_witness :
  (checkPasswordChangeRateLimit (1 # 20) 1000000 "u1"
     (recordPasswordChangeAttempt 50 "u1" {["u1" := mkEntry 3 10]})).2
  = mkCheck true MAX_ATTEMPTS (1000000 + WINDOW_MS).
Proof.
  pose proof (check_spec "u1" {["u1" := mkEntry 3 10]} 1000000 (1 # 20) 50) as H.
  destruct (checkPasswordChangeRateLimit (1 # 20) 1000000 "u1" {["u1" := mkEntry 3 10]}) as [s r].
  destruct H as (_ & _ & _ & H). apply H.
  - intros e He. rewrite lookup_singleton_eq in He. injection He as <-. simpl. lia.
  - unfold WINDOW_MS. lia.
Defined.

(** C8.  Whatever the store held, [reset] followed at once by [check] for
    the same actor reports the full allowance. *)
Theorem reset_then_check a store now rnd :
  (checkPasswordChangeRateLimit rnd now a
     (resetPasswordChangeRateLimit a store)).2
  = mkCheck true MAX_ATTEMPTS (now + WINDOW_MS).
Proof.
  rewrite check_result. unfold live, resetPasswordChangeRateLimit.
  by rewrite lookup_delete_eq.
Qed.

(** C9.  While an actor's unexpired entry has [count >= MAX_ATTEMPTS],
    every call of the guard throws and records nothing: the entry keeps
    its [count] and [firstAttempt], and every thrown response reports the
    same reset instant [firstAttempt + WINDOW_MS], however many blocked
    calls are made inside the window. *)
Theorem blocked_guard_preserves_entry a store e (l : list (Z * Q)) :
  store !! a = Some e →
  MAX_ATTEMPTS ≤ count e →
  Forall (λ p, p.1 - firstAttempt e ≤ WINDOW_MS) l →
  let '(store', rs) := run (guard_calls a l) store in
  store' !! a = Some e ∧
  length rs = length l ∧
  Forall (λ r, ∃ resp, r = Required (inl resp) ∧ status resp = 429 ∧
                       body_resetTime resp = firstAttempt e + WINDOW_MS) rs.
Proof.
  intros Hlk Hcnt. revert store Hlk.
  induction l as [|[t rnd] l IH]; intros store Hlk Hall; simpl.
  - done.
  - apply Forall_cons in Hall as [Ht Hall]. simpl in Ht.
    assert (Hlive : live t a store = Some e).
    { apply live_Some. split; [done|]. unfold expired. apply Z.ltb_ge. lia. }
    rewrite require_unfold. simpl. rewrite check_result, Hlive, check_store.
    simpl. destruct (Z.ltb_spec (count e) MAX_ATTEMPTS) as [Hlt|_]; [lia|].
    set (s := if sweeps rnd then _ else _).
    assert (Hs : s !! a = Some e).
    { destruct (sweep_lookup rnd t store a) as [Heq | [_ Hn]];
        [by rewrite <- Hlk | congruence]. }
    specialize (IH s Hs Hall).
    destruct (run (guard_calls a l) s) as [s' rs].
    destruct IH as (IH1 & IH2 & IH3).
    split; [done|]. split; [simpl; by rewrite IH2|].
    apply Forall_cons. split; [|done]. eexists. split; [reflexivity|]. done.
Qed.

Lemma blocked_guard_preserves_entry_witness :
  let '(store', rs) :=
    run (guard_calls "u1" [(100, 1 # 2); (200, 1 # 20); (900000, 0%Q)])
        {["u1" := mkEntry 5 0; "u2" := mkEntry 1 (-1000000)]} in
  store' !! "u1" = Some (mkEntry 5 0) ∧
  length rs = 3%nat ∧
  Forall (λ r, ∃ resp, r = Required (inl resp) ∧ status resp = 429 ∧
                       body_resetTime resp = firstAttempt (mkEntry 5 0) + WINDOW_MS) rs.
Proof.
  apply (blocked_guard_preserves_entry "u1" _ (mkEntry 5 0) [(100, 1 # 2); (200, 1 # 20); (900000, 0%Q)]).
  - reflexivity.
  - simpl. unfold MAX_ATTEMPTS. lia.
  - repeat (apply Forall_cons; split; [simpl; unfold WINDOW_MS; lia|]). apply Forall_nil. done.
Defined.

End RateLimiterFacts.

(** ** JavaScript strings *)

Section JsStringFacts.
Import JsString.
Implicit Types (s r pat pre post : list N) (eq : N → N → bool) (c : N).

Lemma starts_with_length eq pat : ∀ s,
  starts_with eq pat s = true → (length pat ≤ length s)%nat.
Proof.
  induction pat as [|p pat IH]; intros [|c s]; simpl; try lia; try done.
  intros [_ H]%andb_prop. apply IH in H. lia.
Qed.

Lemma starts_with_app eq pat : ∀ s r,
  (length pat ≤ length s)%nat →
  starts_with eq pat (s ++ r) = starts_with eq pat s.
Proof.
  induction pat as [|p pat IH]; intros [|c s] r; simpl; try lia; try done.
  intros Hle. rewrite IH; [done|lia].
Qed.

Lemma starts_with_app_pat eq pat : ∀ s r,
  starts_with eq pat s = true → starts_with eq pat (s ++ r) = true.
Proof.
  intros s r H. rewrite starts_with_app; [done|]. by eapply starts_with_length.
Qed.

Lemma starts_with_same pat : ∀ s,
  starts_with same pat s = true → s = pat ++ drop (length pat) s.
Proof.
  induction pat as [|p pat IH]; intros [|c s]; simpl; try done.
  intros [Hc H]%andb_prop. apply N.eqb_eq in Hc as ->. f_equal. by apply IH.
Qed.

Lemma starts_with_same_refl pat r : starts_with same pat (pat ++ r) = true.
Proof.
  induction pat as [|p pat IH]; simpl; [done|].
  unfold same at 1. by rewrite N.eqb_refl.
Qed.

(** [find] returns a position where the pattern starts, and no earlier
    position has it. *)
Lemma find_Some eq pat : ∀ s q,
  find eq pat s = Some q ↔
  starts_with eq pat (drop q s) = true ∧ (q ≤ length s)%nat ∧
  ∀ p, (p < q)%nat → starts_with eq pat (drop p s) = false.
Proof.
  induction s as [|c s IH]; intros q; simpl.
  - destruct (starts_with eq pat []) eqn:E.
    + split.
      * intros [= <-]. simpl. split; [done|]. split; [lia|]. intros; lia.
      * intros (_ & Hq & Hp). destruct q; [done|]. simpl in Hq. lia.
    + split; [done|]. intros (H & Hq & _). rewrite drop_nil in H. congruence.
  - destruct (starts_with eq pat (c :: s)) eqn:E.
    + split.
      * intros [= <-]. simpl. split; [done|]. split; [lia|]. intros; lia.
      * intros (_ & _ & Hp). destruct q; [done|].
        specialize (Hp O ltac:(lia)). simpl in Hp. congruence.
    + rewrite fmap_Some. split.
      * intros (q' & F & ->). apply IH in F as (H1 & H2 & H3). simpl.
        split; [done|]. split; [lia|]. intros [|p] Hp; simpl; [done|].
        apply H3. lia.
      * intros (H1 & H2 & H3).
        destruct q as [|q]; simpl in *; [congruence|].
        exists q. split; [|done].
        apply IH. split; [done|]. split; [lia|]. intros p Hp.
        apply (H3 (S p)). lia.
Qed.

Lemma indexOf_app c : ∀ pre s,
  c ∉ pre → head s = Some c → indexOf c (pre ++ s) = Some (length pre).
Proof.
  induction pre as [|x pre IH]; intros s Hnot Hhd; simpl.
  - destruct s as [|y s]; [done|]. simpl in Hhd. injection Hhd as ->.
    simpl. by rewrite N.eqb_refl.
  - apply not_elem_of_cons in Hnot as [Hne Hnot].
    destruct (N.eqb_spec x c) as [->|_]; [done|].
    by rewrite IH.
Qed.

Lemma lastIndexOf_None c : ∀ s, c ∉ s → lastIndexOf c s = None.
Proof.
  induction s as [|x s IH]; [done|]. intros [Hne Hnot]%not_elem_of_cons.
  simpl. rewrite IH by done. destruct (N.eqb_spec x c) as [->|_]; done.
Qed.

Lemma lastIndexOf_app c : ∀ s post,
  c ∉ post → last s = Some c →
  lastIndexOf c (s ++ post) = Some (length s - 1)%nat.
Proof.
  induction s as [|x s IH]; intros post Hnot Hlast; [done|].
  simpl. destruct s as [|y s].
  - simpl in *. injection Hlast as ->.
    rewrite lastIndexOf_None by done. by rewrite N.eqb_refl.
  - rewrite (IH post Hnot) by done. simpl. f_equal. lia.
Qed.

Lemma slice_middle pre s post :
  slice (length pre) (length pre + length s) (pre ++ s ++ post) = s.
Proof.
  unfold slice. rewrite drop_app_length.
  replace (length pre + length s - length pre)%nat with (length s) by lia.
  by rewrite take_app_length.
Qed.

Lemma remove_all_skip pat : ∀ s k,
  remove_all pat s k = remove_all pat (drop k s) 0.
Proof.
  induction s as [|c s IH]; intros [|k]; simpl; auto.
Qed.

Lemma remove_all_pat pat r :
  pat ≠ [] → remove_all pat (pat ++ r) 0 = remove_all pat r 0.
Proof.
  destruct pat as [|p pat]; [done|]. intros _.
  change ((p :: pat) ++ r) with (p :: (pat ++ r)).
  cbn [remove_all].
  change (p :: (pat ++ r)) with ((p :: pat) ++ r).
  rewrite starts_with_same_refl.
  replace (length (p :: pat) - 1)%nat with (length pat) by (simpl; lia).
  rewrite remove_all_skip. by rewrite drop_app_length.
Qed.

(** Up to the first occurrence of a pattern there is nothing to remove,
    and the occurrence itself goes. *)
Lemma remove_all_upto pat : ∀ s,
  pat ≠ [] → find same pat (s ++ pat) = Some (length s) →
  remove_all pat (s ++ pat) 0 = s.
Proof.
  intros s Hpat. induction s as [|c s IH]; intros Hf.
  - simpl. rewrite <- (app_nil_r pat) at 2. by rewrite remove_all_pat.
  - apply find_Some in Hf as (H1 & H2 & H3).
    pose proof (H3 O ltac:(simpl; lia)) as H0. simpl in H0.
    change ((c :: s) ++ pat) with (c :: (s ++ pat)).
    cbn [remove_all]. rewrite H0. f_equal. apply IH.
    apply find_Some. split; [exact H1|]. split; [simpl in H2; lia|].
    intros p Hp. apply (H3 (S p)). simpl. lia.
Qed.

Lemma remove_first_head eq pat s :
  starts_with eq pat s = true → remove_first eq pat s = drop (length pat) s.
Proof. intros H. destruct s; simpl; by rewrite H. Qed.

(** A closing pattern found after [s] is also the first one when more
    text follows. *)
Lemma find_app_more eq pat s r :
  find eq pat (s ++ pat) = Some (length s) →
  find eq pat (s ++ pat ++ r) = Some (length s).
Proof.
  intros (H1 & H2 & H3)%find_Some. apply find_Some.
  rewrite drop_app_length in H1. rewrite drop_app_length.
  split; [by apply starts_with_app_pat|]. split; [rewrite length_app; lia|].
  intros p Hp. specialize (H3 p Hp).
  rewrite app_assoc, drop_app_le by (rewrite length_app; lia).
  rewrite starts_with_app; [done|].
  rewrite length_drop, length_app. lia.
Qed.

(** No occurrence inside [s], and [s] does not end with the unit the
    pattern is made of: the first occurrence in [s ++ ccc] is the suffix. *)
Lemma find_closing_suffix c : ∀ s,
  find same [c; c; c] s = None → last s ≠ Some c →
  find same [c; c; c] (s ++ [c; c; c]) = Some (length s).
Proof.
  induction s as [|x s IH]; intros Hf Hl.
  - simpl. unfold same. by rewrite N.eqb_refl.
  - cbn [find] in Hf.
    destruct (starts_with same [c; c; c] (x :: s)) eqn:E; [done|].
    destruct (find same [c; c; c] s) eqn:F; [done|].
    assert (last s ≠ Some c) as Hl'.
    { destruct s; [done|]. exact Hl. }
    specialize (IH eq_refl Hl').
    change ((x :: s) ++ [c; c; c]) with (x :: (s ++ [c; c; c])).
    cbn [find].
    assert (starts_with same [c; c; c] (x :: s ++ [c; c; c]) = false) as ->;
      [|by rewrite IH].
    destruct s as [|y [|z s]].
    + simpl in *. unfold same. destruct (N.eqb_spec c x) as [->|]; [|done].
      congruence.
    + simpl in *. unfold same.
      destruct (N.eqb_spec c x) as [->|]; [|done].
      destruct (N.eqb_spec x y) as [->|]; [|done]. congruence.
    + simpl in E |- *. exact E.
Qed.

End JsStringFacts.

(** ** JSON.parse *)

Section JsonFacts.
Import JsString Json.
Implicit Types (s r : list N).

Lemma skip_ws_length s : (length (skip_ws s) ≤ length s)%nat.
Proof. induction s as [|c s IH]; simpl; [lia|]. destruct (is_ws c); simpl; lia. Qed.

Lemma skip_ws_cons s c r : skip_ws s = c :: r → (length r < length s)%nat.
Proof. intros H. pose proof (skip_ws_length s). rewrite H in *. simpl in *. lia. Qed.

Lemma strip_length pat : ∀ s r, strip pat s = Some r → (length r ≤ length s)%nat.
Proof.
  induction pat as [|p pat IH]; intros [|c s] r; simpl; try done.
  - intros [= <-]. done.
  - intros [= <-]. done.
  - destruct (p =? c)%N; [|done]. intros H%IH. lia.
Qed.

Lemma digits_length : ∀ s ds r, digits s = (ds, r) → (length r ≤ length s)%nat.
Proof.
  induction s as [|c s IH]; intros ds r; simpl.
  - intros [= <- <-]. done.
  - destruct (is_digit c).
    + destruct (digits s) as [ds' r'] eqn:E. intros [= <- <-].
      specialize (IH _ _ eq_refl). lia.
    + intros [= <- <-]. simpl. lia.
Qed.

Lemma lex_string_length : ∀ n s (acc : list N) k r,
  (length s ≤ n)%nat → lex_string s acc = Some (k, r) → (length r ≤ length s)%nat.
Proof.
  induction n as [|n IH]; intros [|c s] acc k r Hn; simpl in *; try done; try lia.
  repeat case_match; try done;
    try (intros [= <- <-]; simpl; lia);
    subst; simpl in *; intros Hrec%IH; simpl in *; lia.
Qed.

Lemma lex_number_length s lx r :
  lex_number s = Some (lx, r) → (length r ≤ length s)%nat.
Proof.
  unfold lex_number.
  repeat (case_match; try done); simplify_eq; intros [= <- <-];
    repeat match goal with
           | H : digits _ = _ |- _ => apply digits_length in H
           end; simpl in *; lia.
Qed.

Ltac length_facts :=
  repeat match goal with
         | H : skip_ws _ = _ :: _ |- _ => apply skip_ws_cons in H
         | H : lex_string _ _ = Some _ |- _ =>
             apply (lex_string_length _ _ _ _ _ (Nat.le_refl _)) in H
         | H : lex_number _ = Some _ |- _ => apply lex_number_length in H
         | H : strip _ _ = Some _ |- _ => apply strip_length in H
         end.

(** A parse never returns more text than it was given. *)
Lemma parse_length fuel :
  (∀ s v r, parse_value fuel s = Ok (v, r) → (length r ≤ length s)%nat)
  ∧ (∀ s acc v r,
       parse_elements fuel s acc = Ok (v, r) → (length r ≤ length s)%nat)
  ∧ (∀ s acc v r,
       parse_members fuel s acc = Ok (v, r) → (length r ≤ length s)%nat).
Proof.
  induction fuel as [|fuel (IHv & IHe & IHm)]; [by repeat split|].
  repeat split.
  - intros s v r. simpl.
    repeat (case_match; try done); intros Heq; simplify_eq;
      repeat match goal with
             | H : parse_elements _ _ _ = Ok _ |- _ => apply IHe in H
             | H : parse_members _ _ _ = Ok _ |- _ => apply IHm in H
             end; length_facts; simpl in *; lia.
  - intros s acc v r. simpl.
    repeat (case_match; try done); simplify_eq; intros Heq;
      try (apply IHe in Heq); simplify_eq;
      repeat match goal with
             | H : parse_value _ _ = Ok _ |- _ => apply IHv in H
             end; length_facts; simpl in *; lia.
  - intros s acc v r. simpl.
    repeat (case_match; try done); simplify_eq; intros Heq;
      try (apply IHm in Heq); simplify_eq;
      repeat match goal with
             | H : parse_value _ _ = Ok _ |- _ => apply IHv in H
             end; length_facts; simpl in *; lia.
Qed.

(** With two units of fuel for each unit of text the parser never stops
    for want of fuel. *)
Lemma parse_fuel fuel :
  (∀ s, (2 * length s + 1 ≤ fuel)%nat → parse_value fuel s ≠ OutOfFuel)
  ∧ (∀ s acc, (2 * length s + 2 ≤ fuel)%nat →
       parse_elements fuel s acc ≠ OutOfFuel)
  ∧ (∀ s acc, (2 * length s + 2 ≤ fuel)%nat →
       parse_members fuel s acc ≠ OutOfFuel).
Proof.
  induction fuel as [|fuel (IHv & IHe & IHm)].
  { repeat split; intros; lia. }
  repeat split.
  - intros s Hf. simpl.
    repeat (case_match; try done); simplify_eq; length_facts.
    + apply IHm. lia.
    + apply IHe. lia.
  - intros s acc Hf. simpl.
    destruct (parse_value fuel s) as [[v r]| |] eqn:E; [|done|].
    + apply (proj1 (parse_length fuel)) in E.
      repeat (case_match; try done); simplify_eq; length_facts.
      apply IHe. lia.
    + exfalso. revert E. apply IHv. lia.
  - intros s acc Hf. simpl.
    repeat (case_match; try done); simplify_eq;
      repeat match goal with
             | H : parse_value _ _ = Ok _ |- _ =>
                 apply (proj1 (parse_length fuel)) in H
             end; length_facts.
    + apply IHm. lia.
    + exfalso.
      match goal with H : parse_value _ _ = OutOfFuel |- _ => revert H end.
      apply IHv. lia.
Qed.

(** [JSON.parse] either returns a value or throws. *)
Lemma JSON_parse_total text : JSON_parse text ≠ OutOfFuel.
Proof.
  unfold JSON_parse.
  destruct (parse_value (fuel_for text) text) as [[v r]| |] eqn:E.
  - by destruct (skip_ws r).
  - done.
  - exfalso. revert E. apply (proj1 (parse_fuel _)). unfold fuel_for. lia.
Qed.

End JsonFacts.

(** ** JSON extraction *)

Section ExtractJsonFacts.
Import JsString Json Gemini.
Implicit Types (text block pre opener mid body post : list N).

Lemma closing_nonempty : closing ≠ [].
Proof. done. Qed.

Lemma codeBlock_at_fenced opener mid post :
  length opener = 7%nat →
  starts_with same_ci opening opener = true →
  find same closing (mid ++ closing) = Some (length mid) →
  codeBlock_at (opener ++ mid ++ closing ++ post)
  = Some (opener ++ mid ++ closing).
Proof.
  intros Hlen Hop Hcl. unfold codeBlock_at.
  rewrite starts_with_app_pat by done.
  rewrite <- Hlen at 1. rewrite drop_app_length.
  rewrite find_app_more by done. f_equal.
  rewrite (app_assoc mid), (app_assoc opener).
  apply take_app_length'. rewrite !length_app, Hlen. simpl. lia.
Qed.

Lemma codeBlock_at_Some s block :
  codeBlock_at s = Some block →
  ∃ opener mid post,
    s = opener ++ mid ++ closing ++ post ∧ block = opener ++ mid ++ closing ∧
    length opener = 7%nat ∧ starts_with same_ci opening opener = true ∧
    find same closing (mid ++ closing) = Some (length mid).
Proof.
  unfold codeBlock_at.
  destruct (starts_with same_ci opening s) eqn:Hop; [|done].
  destruct (find same closing (drop 7 s)) as [q|] eqn:Hf; [|done].
  intros [= <-].
  pose proof (starts_with_length _ _ _ Hop) as Hlen. change (length opening) with 7%nat in Hlen.
  pose proof Hf as (H1 & H2 & H3)%find_Some.
  apply starts_with_same in H1. change (length closing) with 3%nat in H1.
  set (rest := drop 7 s) in *.
  exists (take 7 s), (take q rest), (drop 3 (drop q rest)).
  assert (Hs : s = take 7 s ++ take q rest ++ closing ++ drop 3 (drop q rest)).
  { rewrite <- H1, take_drop. unfold rest. by rewrite take_drop. }
  assert (Hl7 : length (take 7 s) = 7%nat) by (rewrite length_take; lia).
  assert (Hlq : length (take q rest) = q) by (rewrite length_take; lia).
  split; [exact Hs|]. split.
  - rewrite Hs at 1. rewrite (app_assoc (take q rest)), (app_assoc (take 7 s)).
    apply take_app_length'. rewrite !length_app, Hl7, Hlq. simpl. lia.
  - split; [done|]. split.
    + rewrite <- (take_drop 7 s) in Hop. rewrite starts_with_app in Hop; [done|].
      rewrite Hl7. done.
    + rewrite Hlq. apply find_Some.
      rewrite <- Hlq at 1. rewrite drop_app_length.
      split; [by rewrite <- (app_nil_r closing), starts_with_same_refl|].
      split; [rewrite length_app; lia|].
      intros p Hp. specialize (H3 p Hp).
      rewrite <- (take_drop q rest), H1 in H3.
      rewrite app_assoc, drop_app_le in H3 by (rewrite length_app, Hlq; lia).
      rewrite starts_with_app in H3; [done|].
      rewrite length_drop, length_app, Hlq. simpl. lia.
Qed.

Lemma match_codeBlock_Some text block :
  match_codeBlock text = Some block →
  ∃ pre s, text = pre ++ s ∧ codeBlock_at s = Some block.
Proof.
  induction text as [|c text IH]; cbn [match_codeBlock].
  - done.
  - destruct (codeBlock_at (c :: text)) eqn:E.
    + intros [= <-]. by exists [], (c :: text).
    + intros (pre & s & -> & Hs)%IH. by exists (c :: pre), s.
Qed.

Lemma match_codeBlock_first pre opener rest block :
  length opener = 7%nat →
  find same_ci opening (pre ++ opener) = Some (length pre) →
  codeBlock_at (opener ++ rest) = Some block →
  match_codeBlock (pre ++ opener ++ rest) = Some block.
Proof.
  intros Hlen Hf Hat. induction pre as [|c pre IH].
  - rewrite app_nil_l. destruct opener; [done|].
    change ((n :: opener) ++ rest) with (n :: (opener ++ rest)) in *.
    cbn [match_codeBlock]. by rewrite Hat.
  - apply find_Some in Hf as (H1 & H2 & H3).
    change ((c :: pre) ++ opener ++ rest) with (c :: (pre ++ opener ++ rest)).
    cbn [match_codeBlock].
    assert (codeBlock_at (c :: pre ++ opener ++ rest) = None) as ->.
    { unfold codeBlock_at.
      pose proof (H3 O ltac:(simpl; lia)) as H0. rewrite drop_0 in H0.
      change (c :: pre ++ opener ++ rest) with ((c :: pre) ++ opener ++ rest).
      rewrite app_assoc, starts_with_app, H0; [done|].
      change (length opening) with 7%nat. rewrite length_app. lia. }
    apply IH. apply find_Some. split; [exact H1|].
    split; [cbn [length app] in H2; lia|].
    intros p Hp. apply (H3 (S p)). cbn [length]. lia.
Qed.

Lemma inner_of_fenced opener mid :
  length opener = 7%nat →
  starts_with same_ci opening opener = true →
  find same closing (mid ++ closing) = Some (length mid) →
  inner_of (opener ++ mid ++ closing) = mid.
Proof.
  intros Hlen Hop Hcl. unfold inner_of.
  rewrite remove_first_head by (by apply starts_with_app_pat).
  change (length opening) with 7%nat. rewrite <- Hlen, drop_app_length.
  by apply remove_all_upto.
Qed.

(** A text without a backtick holds no fenced block. *)
Lemma match_codeBlock_no_backtick text :
  96%N ∉ text → match_codeBlock text = None.
Proof.
  induction text as [|c text IH]; [done|].
  intros [Hc Hn]%not_elem_of_cons. cbn [match_codeBlock].
  assert (codeBlock_at (c :: text) = None) as ->; [|by apply IH].
  unfold codeBlock_at.
  assert (starts_with same_ci opening (c :: text) = false) as ->; [|done].
  change opening with (96%N :: units "``json"). cbn [starts_with].
  apply andb_false_iff. left. unfold same_ci, fold_case.
  change ((65 <=? 96)%N && (96 <=? 90)%N) with false. cbn iota.
  destruct ((65 <=? c)%N && (c <=? 90)%N) eqn:E.
  - apply andb_prop in E as [E1%N.leb_le E2%N.leb_le]. apply N.eqb_neq. lia.
  - apply N.eqb_neq. congruence.
Qed.

(** C10.  When the text holds a fenced block, only the content of that
    block, the text between the opening fence and the first closing fence
    after it, reaches [JSON.parse]: the result is the parse of that content,
    and when it does not parse the routine fails, whatever stands around
    the block. *)
Theorem fenced_block_only text block :
  match_codeBlock text = Some block →
  ∃ pre opener mid post,
    text = pre ++ opener ++ mid ++ closing ++ post ∧
    block = opener ++ mid ++ closing ∧
    length opener = 7%nat ∧
    starts_with same_ci opening opener = true ∧
    find same closing (mid ++ closing) = Some (length mid) ∧
    json_source text = mid ∧
    extractJson text =
      match JSON_parse mid with
      | Ok v => inr v
      | _ => inl (Error "Failed to parse JSON from Gemini response")
      end.
Proof.
  intros Hm.
  destruct (match_codeBlock_Some _ _ Hm) as (pre & s & -> & Hat).
  destruct (codeBlock_at_Some _ _ Hat)
    as (opener & mid & post & -> & -> & Hlen & Hop & Hcl).
  exists pre, opener, mid, post.
  assert (Hsrc : json_source (pre ++ opener ++ mid ++ closing ++ post) = mid).
  { unfold json_source. rewrite Hm. by apply inner_of_fenced. }
  repeat split; try done.
  unfold extractJson. by rewrite Hsrc.
Qed.

Lemma fenced_block_only_witness :
  let text := quoted "```json oops ``` {'steps': [1]}" in
  JSON_parse (quoted "{'steps': [1]}")
    = Ok (JObject [(units "steps", JArray [JNumber (units "1")])]) ∧
  extractJson text = inl (Error "Failed to parse JSON from Gemini response").
Proof.
  split; [vm_compute; reflexivity|].
  destruct (fenced_block_only (quoted "```json oops ``` {'steps': [1]}")
              (quoted "```json oops ```") ltac:(vm_compute; reflexivity))
    as (pre & opener & mid & post & _ & _ & _ & _ & _ & Hsrc & ->).
  rewrite <- Hsrc. vm_compute. reflexivity.
Defined.

(** C3, as the code has it.  A text that parses as JSON is recovered
    - bare or wrapped in prose, when it is the span from the first opening
      brace to the last closing brace of the response and the response
      holds no fenced block;
    - fenced, when its fence is the first opening fence of the response
      and the text holds no triple backtick and does not end in a
      backtick. *)
Theorem extractJson_roundtrip body v :
  JSON_parse body = Ok v →
  (∀ pre post,
     head body = Some 123%N → last body = Some 125%N →
     123%N ∉ pre → 125%N ∉ post →
     match_codeBlock (pre ++ body ++ post) = None →
     extractJson (pre ++ body ++ post) = inr v)
  ∧
  (∀ pre opener post,
     length opener = 7%nat →
     find same_ci opening (pre ++ opener) = Some (length pre) →
     find same closing body = None → last body ≠ Some 96%N →
     extractJson (pre ++ opener ++ body ++ closing ++ post) = inr v).
Proof.
  intros Hparse. split.
  - intros pre post Hhd Hlast Hpre Hpost Hno.
    unfold extractJson, json_source. rewrite Hno.
    rewrite indexOf_app; [|done|by destruct body].
    rewrite app_assoc, lastIndexOf_app; [|done|].
    2:{ rewrite last_app. by rewrite Hlast. }
    assert (length body ≠ 0%nat) by (by destruct body).
    replace (length (pre ++ body) - 1 + 1)%nat
      with (length pre + length body)%nat by (rewrite length_app; lia).
    rewrite <- app_assoc, slice_middle. by rewrite Hparse.
  - intros pre opener post Hlen Hfirst Hnone Hlast.
    assert (Hop : starts_with same_ci opening opener = true).
    { apply find_Some in Hfirst as (H1 & _). by rewrite drop_app_length in H1. }
    assert (Hcl : find same closing (body ++ closing) = Some (length body))
      by (by apply (find_closing_suffix 96%N)).
    assert (Hm : match_codeBlock (pre ++ opener ++ body ++ closing ++ post)
                 = Some (opener ++ body ++ closing)).
    { apply match_codeBlock_first; [done|done|]. by apply codeBlock_at_fenced. }
    unfold extractJson, json_source. rewrite Hm.
    rewrite inner_of_fenced by done. by rewrite Hparse.
Qed.

Lemma extractJson_roundtrip_witness :
  let body := quoted "{'steps':[{'type':'click','confidence':90}]}" in
  let v := JObject [(units "steps",
             JArray [JObject [(units "type", JString (units "click"));
                              (units "confidence", JNumber (units "90"))]])] in
  extractJson body = inr v ∧
  extractJson (units "Here is the result: " ++ body ++ units " Done.") = inr v ∧
  extractJson (units "Result: " ++ units "```JSON" ++ body ++ closing
                 ++ units " (end)") = inr v.
Proof.
  intros body v.
  destruct (extractJson_roundtrip body v ltac:(vm_compute; reflexivity))
    as [Hprose Hfenced].
  split; [|split].
  - apply (Hprose [] []); try (vm_compute; reflexivity);
      apply not_elem_of_nil.
  - apply Hprose; try (vm_compute; reflexivity);
      (apply (bool_decide_unpack _); vm_compute; exact I).
  - apply Hfenced; try (vm_compute; reflexivity). vm_compute. discriminate.
Defined.

(** C3 as stated fails in each of its three forms: prose that holds a
    brace, a fenced text that holds a triple backtick inside a string, and
    a bare text that holds a fenced block inside a string. *)
Lemma braces_and_fences_defeat_extraction :
  let failure := inl (Error "Failed to parse JSON from Gemini response") in
  (JSON_parse (quoted "{'steps':[]}") = Ok (JObject [(units "steps", JArray [])])
   ∧ extractJson (quoted "Note {x}: {'steps':[]}") = failure)
  ∧
  (JSON_parse (quoted "{'steps':[{'description':'run ``` now'}]}")
     = Ok (JObject [(units "steps",
             JArray [JObject [(units "description",
                               JString (units "run ``` now"))]])])
   ∧ extractJson (opening ++ quoted "{'steps':[{'description':'run ``` now'}]}"
                    ++ closing) = failure)
  ∧
  (JSON_parse (quoted "{'steps':[{'description':'```json x ```'}]}")
     = Ok (JObject [(units "steps",
             JArray [JObject [(units "description",
                               JString (units "```json x ```"))]])])
   ∧ extractJson (quoted "{'steps':[{'description':'```json x ```'}]}")
     = failure).
Proof. vm_compute. repeat split. Qed.

End ExtractJsonFacts.

(** ** Model fallback *)

Section FallbackFacts.
Import JsString Json Gemini.
Implicit Types (gen : nat → string → thrown + list N).
Implicit Types (models rest : list string) (lastError : option thrown).

Lemma try_models_falls gen models i m rest lastError e :
  attempt (gen i m) = inl e → rethrown e = false →
  try_models gen models i (m :: rest) lastError =
  let wait := if index_of m models <? Z.of_nat (length models) - 1
              then [Wait 1000] else [] in
  let r := try_models gen models (S i) rest (Some e) in
  (Trying m :: Failed m (message e) :: wait ++ r.1, r.2).
Proof.
  intros Ha Hr. cbn [try_models]. rewrite Ha, Hr.
  by destruct (try_models gen models (S i) rest (Some e)).
Qed.


Lemma tried_falls m msg (wait : list event) evs :
  (wait = [Wait 1000] ∨ wait = []) →
  tried (Trying m :: Failed m msg :: wait ++ evs) = m :: tried evs.
Proof. by intros [-> | ->]. Qed.



Lemma rethrown_spec e :
  rethrown e = true ↔ ∃ st, status e = Some st ∧ st ≠ 0 ∧ st ≠ 503.
Proof.
  unfold rethrown. destruct (status e) as [st|]; [|split; [done|by intros (? & ? & _)]].
  rewrite andb_true_iff, !negb_true_iff, !Z.eqb_neq. split.
  - intros [? ?]. by exists st.
  - by intros (? & [= <-] & ? & ?).
Qed.





End FallbackFacts.

(** ** Background analysis job *)

Section AnalyzerFacts.
Import JsString Json Gemini Analyzer.
Implicit Types (env : AnalyzerEnv) (db : DB) (steps : list json).
Implicit Types (results : list VideoAnalysisResult).



Lemma map_steps_spec valid : ∀ steps index results,
  map_steps valid index steps = inr results →
  length results = length steps ∧
  ∀ i r, results !! i = Some r → screenshot_url r = valid !! (index + i)%nat.
Proof.
  induction steps as [|s steps IH]; intros index results.
  - intros [= <-]. split; [done|]. by intros i r.
  - cbn [map_steps].
    destruct (map_steps valid (S index) steps) as [e|rs] eqn:E.
    { by destruct s. }
    destruct (IH _ _ E) as [Hlen Hnth].
    intros H.
    assert (∃ r0, results = r0 :: rs ∧ screenshot_url r0 = valid !! index)
      as (r0 & -> & Hr0).
    { destruct s; try done; injection H as <-; eexists; split; done. }
    split; [simpl; by rewrite Hlen|].
    intros [|i] r; simpl.
    + intros [= <-]. by rewrite Nat.add_0_r.
    + intros Hi. rewrite (Hnth i r Hi). f_equal. lia.
Qed.






(** *** The job *)








(** The pipeline, stage by stage, for a non-empty stored path. *)
Lemma performAIAnalysis_stages env sp workflowId :
  sp ≠ EmptyString →
  (performAIAnalysis env (Some sp) workflowId).2 =
  match fetchVideo env sp with
  | inl e => inl (wrap e)
  | inr file =>
      match extractFrames env file 10 with
      | inl e => inl (wrap e)
      | inr [] =>
          inl (wrap (Error
            "프레임 추출에 실패했습니다. 영상 파일을 확인해주세요."))
      | inr paths =>
          match (analyzeFramesWithGemini (default_models env) (gemini env)
                   paths None).2 with
          | inl e => inl (wrap e)
          | inr steps =>
              match merge steps (uploadFramesToStorage env paths workflowId) with
              | inl e => inl (wrap e)
              | inr results => inr results
              end
          end
      end
  end.
Proof.
  intros Hsp. unfold performAIAnalysis, downloadVideoFromSupabase.
  destruct sp as [|c sp]; [done|].
  rewrite bool_decide_eq_false_2 by done.
  destruct (fetchVideo env (String c sp)) as [e|file]; [done|].
  destruct (extractFrames env file 10) as [e|[|p paths]]; [done|done|].
  destruct (analyzeFramesWithGemini _ _ _ _) as [evs [e|steps]]; [done|].
  simpl. by destruct (merge _ _).
Qed.




End AnalyzerFacts.

(** ** Rate limiter: invariants of a running store *)

Section LimiterTraceFacts.
Import RateLimiter LimiterTraces.
Implicit Types (store : gmap string RateLimitEntry) (a b : string).
Implicit Types (now t : Z) (rnd : Q) (e : RateLimitEntry).

Lemma expired_mono now t e :
  now ≤ t → expired now e = true → expired t e = true.
Proof. unfold expired. rewrite !Z.ltb_lt. lia. Qed.

Lemma live_sweep_later rnd now t b store :
  now ≤ t →
  live t b (if sweeps rnd then cleanupExpiredEntries now store else store)
  = live t b store.
Proof.
  intros Hle. destruct (sweeps rnd); [|done].
  unfold live at 1. rewrite cleanup_lookup. unfold live.
  destruct (store !! b) as [e|]; [|done].
  destruct (expired now e) eqn:E; [|done].
  by rewrite (expired_mono now t e Hle E).
Qed.

(** X1.  The random sweep is invisible: the answer of [check] does not
    depend on the draw, and after the call every actor's entry reads, at
    that instant or any later one, as it did before. *)
Theorem sweep_is_transparent rnd rnd' now a b store t :
  (checkPasswordChangeRateLimit rnd now a store).2
  = (checkPasswordChangeRateLimit rnd' now a store).2
  ∧ (now ≤ t →
     live t b (checkPasswordChangeRateLimit rnd now a store).1
     = live t b store).
Proof.
  split; [by rewrite !check_result|].
  intros Hle. rewrite check_store. by apply live_sweep_later.
Qed.

Lemma sweep_is_transparent_witness :
  let store : gmap string RateLimitEntry :=
    {[ "u1" := mkEntry 5 0; "u2" := mkEntry 2 (-2000000) ]} in
  (checkPasswordChangeRateLimit 0 1000 "u1" store).2
  = (checkPasswordChangeRateLimit 1 1000 "u1" store).2
  ∧ live 5000 "u2" (checkPasswordChangeRateLimit 0 1000 "u1" store).1
    = live 5000 "u2" store.
Proof.
  intros store.
  destruct (sweep_is_transparent 0 1 1000 "u1" "u2" store 5000) as [H1 H2].
  split; [exact H1|]. apply H2. lia.
Defined.

Lemma exec_other_lookup t c store a :
  actor_of c ≠ a →
  ∃ rnd, (exec t c store).1 !! a
         = (if sweeps rnd then cleanupExpiredEntries t store else store) !! a
         ∨ (exec t c store).1 !! a = store !! a.
Proof.
  intros Hne. destruct c as [u rnd | u | u rnd | u]; simpl in *.
  - exists rnd. left.
    destruct (checkPasswordChangeRateLimit rnd t u store) as [s r] eqn:E.
    simpl. change s with (s, r).1. by rewrite <- E, check_store.
  - exists 0%Q. right. by apply record_lookup_ne.
  - exists rnd. left.
    destruct (requirePasswordChangeRateLimit rnd t u store) as [s r] eqn:E.
    simpl. change s with (s, r).1. rewrite <- E, require_unfold. simpl.
    rewrite check_store. destruct (allowed _); simpl; [|done].
    by apply record_lookup_ne.
  - exists 0%Q. right. unfold resetPasswordChangeRateLimit.
    by apply lookup_delete_ne.
Qed.

Lemma live_ext t a store store' :
  store' !! a = store !! a → live t a store' = live t a store.
Proof. unfold live. by intros ->. Qed.

(** X2.  Actors are isolated: no call made for one actor changes what
    the store holds, as [check] reads it at that instant or later, for
    another actor. *)
Theorem calls_for_others_do_not_interfere t c store a t' :
  actor_of c ≠ a → t ≤ t' →
  live t' a (exec t c store).1 = live t' a store.
Proof.
  intros Hne Hle.
  destruct (exec_other_lookup t c store a Hne) as [rnd [H|H]].
  - rewrite (live_ext _ _ _ _ H). by apply live_sweep_later.
  - by apply live_ext.
Qed.

Lemma calls_for_others_do_not_interfere_witness :
  let store : gmap string RateLimitEntry := {[ "u1" := mkEntry 4 0 ]} in
  live 2000 "u1" (exec 1000 (Require_ "u2" 0) store).1 = live 2000 "u1" store
  ∧ live 2000 "u1" (exec 1000 (Reset_ "u2") store).1 = live 2000 "u1" store.
Proof.
  intros store. split.
  - apply calls_for_others_do_not_interfere; [discriminate | lia].
  - apply calls_for_others_do_not_interfere; [discriminate | lia].
Defined.



Lemma bounded_sweep rnd now store :
  bounded store →
  bounded (if sweeps rnd then cleanupExpiredEntries now store else store).
Proof.
  intros Hb. destruct (sweeps rnd); [|done].
  intros a e He. apply (Hb a). unfold cleanupExpiredEntries in He.
  by apply map_lookup_filter_Some in He as [? _].
Qed.

Lemma bounded_record now a store :
  bounded store →
  (∀ e, live now a store = Some e → count e < MAX_ATTEMPTS) →
  bounded (recordPasswordChangeAttempt now a store).
Proof.
  intros Hb Hlt b e. destruct (decide (a = b)) as [<-|Hne].
  - rewrite record_lookup. intros [= <-].
    destruct (live now a store) as [e0|] eqn:Hl; cbn [count].
    + specialize (Hlt e0 eq_refl). apply live_Some in Hl as [Hl _].
      specialize (Hb a e0 Hl). lia.
    + unfold MAX_ATTEMPTS. lia.
  - rewrite record_lookup_ne by done. apply Hb.
Qed.

Lemma bounded_exec t c store :
  is_record c = false → bounded store → bounded (exec t c store).1.
Proof.
  intros Hc Hb. destruct c as [u rnd | u | u rnd | u]; simpl in *; [|done| |].
  - destruct (checkPasswordChangeRateLimit rnd t u store) as [s r] eqn:E.
    simpl. change s with (s, r).1. rewrite <- E, check_store.
    by apply bounded_sweep.
  - destruct (requirePasswordChangeRateLimit rnd t u store) as [s r] eqn:E.
    simpl. change s with (s, r).1. rewrite <- E, require_unfold. cbn zeta.
    rewrite check_result, check_store.
    pose proof (sweep_live rnd t store u) as Hsw.
    pose proof (bounded_sweep rnd t store Hb) as Hbs.
    set (s0 := if sweeps rnd then _ else _) in *.
    destruct (live t u store) as [e|] eqn:Hl.
    + unfold window_result. cbn [allowed].
      destruct (Z.ltb_spec (count e) MAX_ATTEMPTS) as [Hlt|Hge]; simpl; [|done].
      apply bounded_record; [done|]. rewrite Hsw. by intros e' [= <-].
    + simpl. apply bounded_record; [done|]. by rewrite Hsw.
  - intros a e He. apply (Hb a). unfold resetPasswordChangeRateLimit in He.
    by apply lookup_delete_Some in He as [_ ?].
Qed.

(** X4.  As long as attempts are recorded through the guard only, every
    count in the store stays between one and [MAX_ATTEMPTS]: the guard
    never counts past the limit. *)
Theorem guard_keeps_counts_bounded tr store :
  bounded store →
  Forall (λ tc, is_record tc.2 = false) tr →
  bounded (run tr store).1.
Proof.
  revert store. induction tr as [|[t c] tr IH]; intros store Hb Hall; [done|].
  apply Forall_cons in Hall as [Hc Hall]. simpl in Hc. simpl.
  pose proof (bounded_exec t c store Hc Hb) as Hb'.
  destruct (exec t c store) as [s r]. simpl in Hb'.
  specialize (IH s Hb' Hall). by destruct (run tr s).
Qed.

Lemma guard_keeps_counts_bounded_witness :
  bounded (run [(0, Require_ "u1" 0); (1, Require_ "u1" 1);
                (2, Require_ "u1" 0); (3, Require_ "u1" 1);
                (4, Require_ "u1" 0); (5, Require_ "u1" 1);
                (6, Require_ "u1" 0); (7, Check "u1" 0);
                (8, Require_ "u2" 0)] ∅).1.
Proof.
  apply guard_keeps_counts_bounded.
  - intros a e He. by rewrite lookup_empty in He.
  - repeat (apply Forall_cons; split; [reflexivity|]). apply Forall_nil. done.
Defined.

(** X5.  Once more than the window has passed since the first attempt,
    the guard lets the actor through whatever the count was, logs four
    remaining attempts, and opens a new window at the current instant. *)
Theorem window_reopens_through_guard rnd now a store e :
  store !! a = Some e →
  WINDOW_MS < now - firstAttempt e →
  requirePasswordChangeRateLimit rnd now a store
  = ((requirePasswordChangeRateLimit rnd now a store).1, inr 4)
  ∧ (requirePasswordChangeRateLimit rnd now a store).1 !! a
    = Some (mkEntry 1 now).
Proof.
  intros He Hold.
  assert (Hl : live now a store = None).
  { unfold live. rewrite He. unfold expired.
    by destruct (Z.ltb_spec WINDOW_MS (now - firstAttempt e)); [|lia]. }
  rewrite require_unfold. cbn zeta. rewrite check_result, check_store, Hl.
  cbn [fresh_result allowed remainingAttempts fst snd].
  split; [done|]. by rewrite record_lookup, sweep_live, Hl.
Qed.

Lemma window_reopens_through_guard_witness :
  requirePasswordChangeRateLimit 0 1000000 "u1" {[ "u1" := mkEntry 9 0 ]}
  = ((requirePasswordChangeRateLimit 0 1000000 "u1"
        {[ "u1" := mkEntry 9 0 ]}).1, inr 4)
  ∧ (requirePasswordChangeRateLimit 0 1000000 "u1"
       {[ "u1" := mkEntry 9 0 ]}).1 !! "u1"
    = Some (mkEntry 1 1000000).
Proof.
  apply (window_reopens_through_guard 0 1000000 "u1" _ (mkEntry 9 0)).
  - reflexivity.
  - unfold WINDOW_MS. simpl. lia.
Defined.

(** X6.  The guard throws only for an actor whose unexpired entry has
    used up the allowance; the response then has status 429, no remaining
    attempt, the reset instant of that entry, and, when the entry's window
    did not open in the future, between 0 and 15 minutes to wait. *)
Theorem guard_throws_only_when_exhausted rnd now a store resp :
  (requirePasswordChangeRateLimit rnd now a store).2 = inl resp →
  ∃ e, store !! a = Some e ∧
       MAX_ATTEMPTS ≤ count e ∧ now - firstAttempt e ≤ WINDOW_MS ∧
       status resp = 429 ∧ body_remainingAttempts resp = 0 ∧
       body_resetTime resp = firstAttempt e + WINDOW_MS ∧
       (firstAttempt e ≤ now → 0 ≤ minutesUntilReset resp ≤ 15).
Proof.
  rewrite require_unfold. cbn zeta. rewrite check_result.
  destruct (live now a store) as [e|] eqn:Hl; [|done].
  unfold window_result. cbn [allowed resetTime].
  destruct (Z.ltb_spec (count e) MAX_ATTEMPTS) as [Hlt|Hge]; [done|].
  cbn [snd]. intros [= <-]. apply live_Some in Hl as [Hs Hx].
  unfold expired in Hx. apply Z.ltb_ge in Hx.
  exists e. split; [done|]. split; [done|]. split; [done|].
  do 3 (split; [done|]).
  cbn [minutesUntilReset resetTime]. intros Hpast.
  pose proof (ceil_div_bounds (firstAttempt e + WINDOW_MS - now) 60000
                ltac:(lia)). unfold WINDOW_MS in *. lia.
Qed.

Lemma guard_throws_only_when_exhausted_witness :
  ∃ e, ({[ "u1" := mkEntry 5 0 ]} : gmap string RateLimitEntry) !! "u1" = Some e
       ∧ MAX_ATTEMPTS ≤ count e ∧ 61000 - firstAttempt e ≤ WINDOW_MS.
Proof.
  assert (H : (requirePasswordChangeRateLimit 0 61000 "u1"
                 {[ "u1" := mkEntry 5 0 ]}).2
              = inl (mkTooMany 14 WINDOW_MS 0 429))
    by (vm_compute; reflexivity).
  destruct (guard_throws_only_when_exhausted 0 61000 "u1" _ _ H)
    as (e & H1 & H2 & H3 & _).
  exists e. split; [exact H1|]. split; [exact H2|exact H3].
Defined.

Lemma timely_sweep rnd now t store :
  timely t store →
  timely t (if sweeps rnd then cleanupExpiredEntries now store else store).
Proof.
  intros Ht. destruct (sweeps rnd); [|done].
  intros a e He. apply (Ht a). unfold cleanupExpiredEntries in He.
  by apply map_lookup_filter_Some in He as [? _].
Qed.

Lemma timely_record now t a store :
  now ≤ t → timely t store → timely t (recordPasswordChangeAttempt now a store).
Proof.
  intros Hle Ht b e. destruct (decide (a = b)) as [<-|Hne].
  - rewrite record_lookup. intros [= <-].
    destruct (live now a store) as [e0|] eqn:Hl; cbn [firstAttempt]; [|done].
    apply live_Some in Hl as [Hl _]. by apply (Ht a).
  - rewrite record_lookup_ne by done. apply Ht.
Qed.

Lemma timely_exec now t c store :
  now ≤ t → timely t store → timely t (exec now c store).1.
Proof.
  intros Hle Ht. destruct c as [u rnd | u | u rnd | u]; simpl.
  - destruct (checkPasswordChangeRateLimit rnd now u store) as [s r] eqn:E.
    simpl. change s with (s, r).1. rewrite <- E, check_store.
    by apply timely_sweep.
  - by apply timely_record.
  - destruct (requirePasswordChangeRateLimit rnd now u store) as [s r] eqn:E.
    simpl. change s with (s, r).1. rewrite <- E, require_unfold. cbn zeta.
    rewrite check_store. destruct (allowed _); simpl.
    + apply timely_record; [done|]. by apply timely_sweep.
    + by apply timely_sweep.
  - intros a e He. apply (Ht a). unfold resetPasswordChangeRateLimit in He.
    by apply lookup_delete_Some in He as [_ ?].
Qed.

(** X7.  No entry ever carries a first-attempt instant later than the
    latest clock reading the limiter was called with. *)
Theorem first_attempts_never_in_future tr store t :
  timely t store → Forall (λ tc, tc.1 ≤ t) tr → timely t (run tr store).1.
Proof.
  revert store. induction tr as [|[now c] tr IH]; intros store Ht Hall; [done|].
  apply Forall_cons in Hall as [Hc Hall]. simpl in Hc. simpl.
  pose proof (timely_exec now t c store Hc Ht) as Ht'.
  destruct (exec now c store) as [s r]. simpl in Ht'.
  specialize (IH s Ht' Hall). by destruct (run tr s).
Qed.

Lemma first_attempts_never_in_future_witness :
  timely 6000 (run five_attempts_trace ∅).1.
Proof.
  apply first_attempts_never_in_future.
  - intros a e He. by rewrite lookup_empty in He.
  - unfold five_attempts_trace.
    repeat (apply Forall_cons; split; [simpl; lia|]). apply Forall_nil. done.
Defined.

End LimiterTraceFacts.

(** ** Change-password endpoint *)

Section ChangePasswordFacts.
Import RateLimiter ChangePassword.
Implicit Types (store : gmap string RateLimitEntry) (req : Request).

(** What the request does once its user is known. *)
Lemma action_cases req rnd now store :
  let '(store', evs, resp) := action req rnd now store in
  match user req, method_guard req, auth_guard req with
  | Some u, None, None =>
      let g := requirePasswordChangeRateLimit rnd now (id u) store in
      match g.2 with
      | inl r => store' = g.1 ∧ evs = [] ∧ resp = TooMany r
      | inr _ =>
          (resp = Changed ∧
           store' = resetPasswordChangeRateLimit (id u) g.1)
          ∨ (store' = g.1 ∧
             (resp = FieldErrors ∨ resp = CurrentPasswordRequired ∨
              resp = CurrentPasswordMismatch ∨ resp = UpdateFailed))
      end
      ∧ (length (filter (λ ev, is_signIn ev = true) evs) ≤ 1)%nat
  | _, _, _ =>
      store' = store ∧ evs = [] ∧ (resp = NoUser ∨ ∃ st, resp = GuardThrew st)
  end.
Proof.
  unfold action.
  destruct (method_guard req) as [st|].
  { destruct (user req); repeat split; eauto. }
  destruct (auth_guard req) as [st|].
  { destruct (user req); repeat split; eauto. }
  destruct (user req) as [u|]; [|repeat split; eauto].
  destruct (requirePasswordChangeRateLimit rnd now (id u) store)
    as [s [r|n]]; cbn [fst snd]; [by repeat split; auto|].
  destruct (safeParse req) as [pw|]; [|split; [right; auto|simpl; lia]].
  destruct (bool_decide _).
  - destruct (form req !! "currentPassword") as [[|c cur]|];
      [split; [right; auto|simpl; lia]| |split; [right; auto|simpl; lia]].
    destruct (signInWithPassword req (email u) (String c cur));
      [|split; [right; auto 6|simpl; lia]].
    destruct (updateUser req pw); (split; [auto 7|simpl; lia]).
  - destruct (updateUser req pw); (split; [auto 7|simpl; lia]).
Qed.

(** X8.  A request of a user who has used up the allowance is answered
    with the 429 response before the form is looked at: no password is
    checked or changed, whatever the form holds, and the entry stays as
    it was. *)
Theorem limited_request_makes_no_call req rnd now store u e :
  method_guard req = None → auth_guard req = None → user req = Some u →
  store !! id u = Some e →
  MAX_ATTEMPTS ≤ count e → now - firstAttempt e ≤ WINDOW_MS →
  let '(store', evs, resp) := action req rnd now store in
  evs = [] ∧ store' !! id u = Some e ∧
  ∃ r, resp = TooMany r ∧ status r = 429 ∧
       body_resetTime r = firstAttempt e + WINDOW_MS.
Proof.
  intros Hm Ha Hu He Hc Hw. unfold action. rewrite Hm, Ha, Hu.
  assert (Hl : live now (id u) store = Some e).
  { apply live_Some. split; [done|]. unfold expired. apply Z.ltb_ge. lia. }
  rewrite require_unfold. cbn zeta. rewrite check_result, Hl, check_store.
  unfold window_result. cbn [allowed resetTime].
  destruct (Z.ltb_spec (count e) MAX_ATTEMPTS) as [?|_]; [lia|].
  split; [done|]. split.
  - destruct (sweep_lookup rnd now store (id u)) as [-> | [_ Hn]];
      [done | congruence].
  - eexists. by repeat split.
Qed.

Lemma limited_request_makes_no_call_witness :
  let req := mkRequest None None (Some (mkUser "u1" "a@b.c"))
               {[ "password" := "new-secret"; "confirmPassword" := "new-secret" ]}
               (λ x, x) (λ _ _, true) (λ _, true) in
  let '(store', evs, resp) :=
    action req 0 1000 {[ "u1" := mkEntry 5 0 ]} in
  evs = [] ∧ store' !! "u1" = Some (mkEntry 5 0) ∧
  ∃ r, resp = TooMany r ∧ status r = 429 ∧
       body_resetTime r = firstAttempt (mkEntry 5 0) + WINDOW_MS.
Proof.
  intros req.
  apply (limited_request_makes_no_call req 0 1000 _ (mkUser "u1" "a@b.c")
           (mkEntry 5 0)); try reflexivity.
  unfold WINDOW_MS. cbn [firstAttempt]. lia.
Defined.


(** The events of a request that does not pass the limiter. *)
Lemma action_blocked_no_call req rnd now store :
  let '(_, evs, resp) := action req rnd now store in
  (resp = NoUser ∨ (∃ st, resp = GuardThrew st) ∨ (∃ r, resp = TooMany r)) →
  evs = [].
Proof.
  pose proof (Hc := action_cases req rnd now store).
  destruct (action req rnd now store) as [[store' evs] resp].
  destruct (user req) as [u|]; cycle 1.
  { by destruct Hc as (_ & -> & _). }
  destruct (method_guard req); [by destruct Hc as (_ & -> & _)|].
  destruct (auth_guard req); [by destruct Hc as (_ & -> & _)|].
  cbn zeta in Hc.
  destruct (requirePasswordChangeRateLimit rnd now (id u) store).2 as [r|n].
  - by destruct Hc as [(_ & -> & _) _].
  - destruct Hc
      as [[(-> & _) | (_ & [-> | [-> | [-> | ->]]])] _];
      intros [? | [[? ?] | [? ?]]]; done.
Qed.

Lemma action_step a t0 k req rnd now store :
  after_attempts a t0 k store → (k ≤ Z.to_nat MAX_ATTEMPTS)%nat →
  t0 ≤ now ≤ t0 + WINDOW_MS →
  (∀ u, user req = Some u → id u = a) →
  let '(store', evs, resp) := action req rnd now store in
  resp ≠ Changed →
  ∃ k', after_attempts a t0 k' store' ∧ (k' ≤ Z.to_nat MAX_ATTEMPTS)%nat ∧
        (k + length (filter (λ ev, is_signIn ev = true) evs) ≤ k')%nat ∧
        (k + (if passed resp then 1 else 0) ≤ k')%nat.
Proof.
  intros Hk Hle Hnow Hu.
  pose proof (action_cases req rnd now store) as H.
  destruct (action req rnd now store) as [[store' evs] resp].
  destruct (user req) as [u|]; cycle 1.
  { destruct H as (-> & -> & [-> | [st ->]]); intros _; exists k;
      repeat split; simpl; (done || lia). }
  destruct (method_guard req);
    [destruct H as (-> & -> & [-> | [st ->]]); intros _; exists k;
       repeat split; simpl; (done || lia)|].
  destruct (auth_guard req);
    [destruct H as (-> & -> & [-> | [st ->]]); intros _; exists k;
       repeat split; simpl; (done || lia)|].
  specialize (Hu u eq_refl). rewrite Hu in H. cbn zeta in H.
  rewrite require_unfold in H. cbn zeta in H.
  rewrite (check_allowed_below a t0 k store rnd now Hk Hnow) in H.
  rewrite check_store in H.
  pose proof (after_attempts_sweep a t0 k store rnd now Hk Hnow) as Hs.
  destruct (Z.ltb_spec (Z.of_nat k) MAX_ATTEMPTS) as [Hlt|Hge];
    cbn [fst snd] in H.
  - destruct H as [[(-> & _) | (-> & Hresp)] Hev]; [done|]. intros _.
    exists (S k). split; [by apply after_attempts_record|].
    split; [unfold MAX_ATTEMPTS in *; lia|]. split; [lia|].
    destruct Hresp as [-> | [-> | [-> | ->]]]; simpl; lia.
  - destruct H as [(-> & -> & ->) _]. intros _. exists k.
    repeat split; simpl; (done || lia).
Qed.

(** X10.  Within one window the endpoint lets at most [MAX_ATTEMPTS]
    requests of a user past the limiter, and so checks at most that many
    guesses of the current password, as long as none of the requests
    changes the password. *)
Theorem at_most_five_password_checks reqs store a t0 :
  live t0 a store = None →
  Forall (λ x : Request * Q * Z,
            (t0 ≤ x.2 ≤ t0 + WINDOW_MS) ∧
            ∀ u, user x.1.1 = Some u → id u = a) reqs →
  let out := (serve reqs store).2 in
  Forall (λ o, o.2 ≠ Changed) out →
  (length (filter (λ ev, is_signIn ev = true) (calls out)) ≤ 5)%nat ∧
  (length (filter (λ o, passed o.2 = true) out) ≤ 5)%nat.
Proof.
  intros Hfresh Hall out Hout.
  assert (H : ∀ reqs store k,
    after_attempts a t0 k store → (k ≤ Z.to_nat MAX_ATTEMPTS)%nat →
    Forall (λ x : Request * Q * Z,
              (t0 ≤ x.2 ≤ t0 + WINDOW_MS) ∧
              ∀ u, user x.1.1 = Some u → id u = a) reqs →
    Forall (λ o, o.2 ≠ Changed) (serve reqs store).2 →
    (k + length (filter (λ ev, is_signIn ev = true)
                   (calls (serve reqs store).2)) ≤ 5)%nat ∧
    (k + length (filter (λ o, passed o.2 = true) (serve reqs store).2)
     ≤ 5)%nat).
  { clear. induction reqs as [|[[req rnd] now] reqs IH];
      intros store k Hk Hle Hall Hout.
    { simpl. change (Z.to_nat MAX_ATTEMPTS) with 5%nat in Hle. lia. }
    apply Forall_cons in Hall as [[Hnow Hu] Hall]. simpl in Hnow, Hu.
    pose proof (action_step a t0 k req rnd now store Hk Hle Hnow Hu) as Hstep.
    cbn [serve] in *.
    destruct (action req rnd now store) as [[s evs] resp].
    specialize (IH s).
    destruct (serve reqs s) as [s' out']. cbn [snd] in *.
    apply Forall_cons in Hout as [Hresp Hout]. simpl in Hresp.
    destruct (Hstep Hresp) as (k' & Hk' & Hle' & Hev & Hpass).
    destruct (IH k' Hk' Hle' Hall Hout) as [IH1 IH2].
    unfold calls in *. cbn [fmap list_fmap concat fst].
    rewrite filter_app, length_app, filter_cons. cbn [snd].
    split; [lia|].
    destruct (decide (passed resp = true)) as [Hp|Hp].
    - rewrite Hp in Hpass. cbn [length]. lia.
    - lia. }
  destruct (H reqs store 0%nat) as [H1 H2]; try done.
  change (Z.to_nat MAX_ATTEMPTS) with 5%nat. lia.
Qed.

Lemma at_most_five_password_checks_witness :
  let guess (pw : string) (now : Z) : Request * Q * Z :=
    (mkRequest None None (Some (mkUser "u1" "a@b.c"))
       {[ "hasExistingPassword" := "true"; "currentPassword" := pw;
          "password" := "new-secret"; "confirmPassword" := "new-secret" ]}
       (λ x, x) (λ _ pw, bool_decide (pw = "right")) (λ _, true),
     1%Q, now) in
  let reqs := [guess "a" 0; guess "b" 1; guess "c" 2; guess "d" 3;
               guess "e" 4; guess "right" 5; guess "right" 6] in
  (length (filter (λ ev, is_signIn ev = true) (calls (serve reqs ∅).2)) ≤ 5)%nat
  ∧ (length (filter (λ o, passed o.2 = true) (serve reqs ∅).2) ≤ 5)%nat.
Proof.
  intros guess reqs.
  apply (at_most_five_password_checks reqs ∅ "u1" 0).
  - reflexivity.
  - repeat (apply Forall_cons; split;
            [split; [unfold WINDOW_MS; simpl; lia
                    | by intros u [= <-]] |]).
    apply Forall_nil. done.
  - assert (Hout : snd <$> (serve reqs ∅).2
                   = [CurrentPasswordMismatch; CurrentPasswordMismatch;
                      CurrentPasswordMismatch; CurrentPasswordMismatch;
                      CurrentPasswordMismatch;
                      TooMany (mkTooMany 15 WINDOW_MS 0 429);
                      TooMany (mkTooMany 15 WINDOW_MS 0 429)])
      by (vm_compute; reflexivity).
    apply (Forall_fmap snd (λ r, r ≠ Changed)). rewrite Hout.
    repeat (apply Forall_cons; split; [discriminate|]). apply Forall_nil. done.
Defined.

End ChangePasswordFacts.

(** ** Model fallback: what the loop returns *)

Section FallbackResultFacts.
Import JsString Json Gemini.
Implicit Types (gen : nat → string → thrown + list N).
Implicit Types (models rest : list string) (lastError : option thrown).

Lemma attempt_response_failure text e :
  attempt (inr text) = inl e →
  rethrown e = false ∧
  (e = Error "Failed to parse JSON from Gemini response"
   ∨ e = Error "Invalid JSON format from Gemini").
Proof.
  unfold attempt, extractJson.
  destruct (JSON_parse (json_source text)) as [j| |];
    [|intros [= <-]; auto..].
  destruct (property "steps" j) as [[]|]; intros [= <-]; auto.
Qed.

(** X11.  A model that answers never stops the fallback.  When the
    answer cannot be parsed or has no [steps] array, the thrown value
    carries no status, and the loop goes on with the next model exactly as
    a loop started there would, with that failure as its last error. *)
Theorem bad_answer_moves_on gen models i m rest lastError text e :
  gen i m = inr text → attempt (inr text) = inl e →
  rethrown e = false ∧ status e = None ∧
  (try_models gen models i (m :: rest) lastError).2
  = (try_models gen models (S i) rest (Some e)).2 ∧
  tried (try_models gen models i (m :: rest) lastError).1
  = m :: tried (try_models gen models (S i) rest (Some e)).1.
Proof.
  intros Hg Ha. destruct (attempt_response_failure text e Ha) as [Hr He].
  split; [done|]. split; [by destruct He as [-> | ->]|].
  assert (Ha' : attempt (gen i m) = inl e) by (by rewrite Hg).
  rewrite (try_models_falls gen models i m rest lastError e Ha' Hr).
  cbn zeta. cbn [fst snd]. split; [done|].
  apply tried_falls. by destruct (_ <? _); [left|right].
Qed.

Lemma bad_answer_moves_on_witness :
  let gen (i : nat) (m : string) : thrown + list N :=
    match i with
    | O => inr (quoted "{'result': 'no steps here'}")
    | _ => inr (quoted "{'steps': []}")
    end in
  (try_models gen default_models_a 0 default_models_a None).2
  = (try_models gen default_models_a 1 (tail default_models_a)
       (Some (Error "Invalid JSON format from Gemini"))).2.
Proof.
  intros gen.
  assert (Ha : attempt (inr (quoted "{'result': 'no steps here'}"))
               = inl (Error "Invalid JSON format from Gemini"))
    by (vm_compute; reflexivity).
  destruct (bad_answer_moves_on gen default_models_a 0 "gemini-2.0-flash"
              (tail default_models_a) None _ _ eq_refl Ha)
    as (_ & _ & H & _).
  exact H.
Defined.

(** The loop, read backwards from its result. *)
Lemma try_models_inv gen models : ∀ rest i lastError,
  let '(evs, r) := try_models gen models i rest lastError in
  tried evs `prefix_of` rest ∧
  (length (waits evs) ≤ length (tried evs))%nat ∧
  Forall (λ ms, ms = 1000) (waits evs) ∧
  match r with
  | inr steps =>
      ∃ k m, rest !! k = Some m ∧ attempt (gen (i + k)%nat m) = inr steps ∧
             tried evs = take (S k) rest
  | inl e =>
      (tried evs = rest ∧
       match last rest with
       | None => e = exhausted lastError
       | Some m => attempt (gen (i + length rest - 1)%nat m) = inl e
       end)
      ∨ ∃ k m, rest !! k = Some m ∧ attempt (gen (i + k)%nat m) = inl e ∧
               rethrown e = true ∧ tried evs = take (S k) rest
  end.
Proof.
  induction rest as [|m rest IH]; intros i lastError.
  - cbn [try_models]. repeat split; try done. by left.
  - cbn [try_models].
    destruct (attempt (gen i m)) as [e|steps] eqn:Ha.
    + destruct (rethrown e) eqn:Hr.
      * split; [by apply prefix_cons, prefix_nil|]. split; [simpl; lia|].
        split; [done|]. right. exists 0%nat, m.
        rewrite Nat.add_0_r. by repeat split.
      * specialize (IH (S i) (Some e)).
        destruct (try_models gen models (S i) rest (Some e)) as [evs r].
        destruct IH as (Hp & Hl & Hw & Hr').
        set (wait := if _ <? _ then [Wait 1000] else []).
        assert (Ht : tried (Trying m :: Failed m (message e) :: wait ++ evs)
                     = m :: tried evs).
        { apply tried_falls. unfold wait. by destruct (_ <? _); [left|right]. }
        assert (Hws : waits (Trying m :: Failed m (message e) :: wait ++ evs)
                      = waits wait ++ waits evs).
        { unfold wait. by destruct (_ <? _). }
        rewrite Ht, Hws. split; [by apply prefix_cons|].
        split; [|split].
        -- rewrite length_app. cbn [length]. unfold wait.
           destruct (_ <? _); simpl; lia.
        -- apply Forall_app. split; [|done]. unfold wait.
           destruct (_ <? _); repeat constructor.
        -- destruct r as [e'|steps].
           ++ destruct Hr' as [[Hall Hlast] | (k & m' & Hk & Hk' & Hk'' & Htk)].
              ** left. split; [by rewrite Hall|].
                 destruct rest as [|m2 rest].
                 --- simpl in *. replace (i + 1 - 1)%nat with i by lia.
                     by rewrite Hlast.
                 --- change (last (m :: m2 :: rest)) with (last (m2 :: rest)).
                     destruct (last (m2 :: rest)) eqn:El;
                       [|by apply last_None in El].
                     replace (i + length (m :: m2 :: rest) - 1)%nat
                       with (S i + length (m2 :: rest) - 1)%nat
                       by (simpl; lia).
                     done.
              ** right. exists (S k), m'.
                 replace (i + S k)%nat with (S i + k)%nat by lia.
                 repeat split; try done. simpl. by rewrite Htk.
           ++ destruct Hr' as (k & m' & Hk & Hk' & Htk).
              exists (S k), m'.
              replace (i + S k)%nat with (S i + k)%nat by lia.
              repeat split; try done. simpl. by rewrite Htk.
    + split; [by apply prefix_cons, prefix_nil|]. split; [simpl; lia|].
      split; [done|]. exists 0%nat, m. rewrite Nat.add_0_r. by repeat split.
Qed.


(** X13.  Steps returned by the call are always the [steps] array of
    the response of the last model tried; every model tried before it
    failed. *)
Theorem steps_come_from_last_model_tried defaults env framePaths model
    evs steps :
  analyzeFramesWithGemini defaults env framePaths model = (evs, inr steps) →
  let models := models_for defaults model in
  ∃ k m text j,
    models !! k = Some m ∧ tried evs = take (S k) models ∧
    generateContent env k m = inr text ∧
    extractJson text = inr j ∧ property "steps" j = Some (JArray steps).
Proof.
  unfold analyzeFramesWithGemini.
  destruct (GEMINI_API_KEY env) as [[|c key]|]; [done| |done].
  destruct (readFrames env framePaths); [done|].
  pose proof (try_models_inv (generateContent env)
                (models_for defaults model) (models_for defaults model)
                0%nat None) as H.
  intros E. rewrite E in H. destruct H as (_ & _ & _ & k & m & Hk & Ha & Ht).
  cbn zeta. exists k, m. simpl in Ha. unfold attempt in Ha.
  destruct (generateContent env k m) as [e|text]; [done|].
  destruct (extractJson text) as [e|j] eqn:Hj; [done|].
  destruct (property "steps" j) as [[]|] eqn:Hp; try done.
  injection Ha as ->. by exists text, j.
Qed.

Lemma steps_come_from_last_model_tried_witness :
  let busy := mkThrown true "The model is overloaded" (Some 503) in
  let env := mkGeminiEnv (Some "key") (λ _, None)
               (λ i _, match i with
                       | 0%nat | 1%nat => inl busy
                       | _ => inr (quoted "{'steps':[{'type':'click'}]}")
                       end) in
  ∃ k m text j,
    default_models_b !! k = Some m ∧
    generateContent env k m = inr text ∧
    extractJson text = inr j ∧
    property "steps" j
    = Some (JArray [JObject [(units "type", JString (units "click"))]]).
Proof.
  intros busy env.
  assert (E : analyzeFramesWithGemini default_models_b env ["frame_001.jpg"] None
              = ([Trying "gemini-2.5-flash";
                  Failed "gemini-2.5-flash" "The model is overloaded"; Wait 1000;
                  Trying "gemini-2.5-flash-lite";
                  Failed "gemini-2.5-flash-lite" "The model is overloaded";
                  Wait 1000;
                  Trying "gemini-2.0-flash"; Succeeded "gemini-2.0-flash"],
                 inr [JObject [(units "type", JString (units "click"))]]))
    by (vm_compute; reflexivity).
  destruct (steps_come_from_last_model_tried _ _ _ _ _ _ E)
    as (k & m & text & j & H1 & _ & H2 & H3 & H4).
  by exists k, m, text, j.
Defined.

(** X14.  When the client could be made and the frames read, a failure
    of the call is always the failure of the last model tried: with a
    non-empty list the error [All Gemini models failed] is never thrown. *)
Theorem error_is_failure_of_last_model_tried defaults env framePaths model
    key evs e :
  GEMINI_API_KEY env = Some key → key ≠ EmptyString →
  readFrames env framePaths = None → defaults ≠ [] →
  analyzeFramesWithGemini defaults env framePaths model = (evs, inl e) →
  let models := models_for defaults model in
  ∃ k m, models !! k = Some m ∧ tried evs = take (S k) models ∧
         attempt (generateContent env k m) = inl e.
Proof.
  intros Hkey Hne Hread Hdef. unfold analyzeFramesWithGemini.
  rewrite Hkey, Hread. destruct key as [|c key]; [done|].
  pose proof (try_models_inv (generateContent env)
                (models_for defaults model) (models_for defaults model)
                0%nat None) as H.
  intros E. rewrite E in H. cbn zeta.
  destruct H as (_ & _ & _ & [[Hall Hlast] | (k & m & Hk & Ha & _ & Ht)]).
  - set (models := models_for defaults model) in *.
    assert (Hm : models ≠ []).
    { unfold models, models_for. by destruct defaults. }
    destruct (last models) as [m|] eqn:El; [|by apply last_None in El].
    exists (length models - 1)%nat, m. simpl in Hlast.
    split.
    { rewrite last_lookup in El.
      by replace (length models - 1)%nat with (pred (length models)) by lia. }
    split; [|done].
    rewrite Hall. symmetry. apply take_ge. lia.
  - by exists k, m.
Qed.

Lemma error_is_failure_of_last_model_tried_witness :
  let denied := mkThrown true "API key not valid" (Some 400) in
  let env := mkGeminiEnv (Some "key") (λ _, None) (λ _ _, inl denied) in
  ∃ k m, default_models_a !! k = Some m ∧
         attempt (generateContent env k m) = inl denied.
Proof.
  intros denied env.
  assert (E : analyzeFramesWithGemini default_models_a env [] None
              = ([Trying "gemini-2.0-flash";
                  Failed "gemini-2.0-flash" "API key not valid"], inl denied))
    by (vm_compute; reflexivity).
  destruct (error_is_failure_of_last_model_tried default_models_a env [] None
              "key" _ _ eq_refl ltac:(discriminate) eq_refl
              ltac:(discriminate) E)
    as (k & m & H1 & _ & H2).
  by exists k, m.
Defined.

End FallbackResultFacts.

(** ** JSON extraction: the brace span *)

Section BraceSpanFacts.
Import JsString Json Gemini.

Lemma indexOf_lookup c : ∀ s i, indexOf c s = Some i → s !! i = Some c.
Proof.
  induction s as [|x s IH]; intros i; simpl; [done|].
  destruct (N.eqb_spec x c) as [->|_].
  - by intros [= <-].
  - destruct (indexOf c s) as [k|]; [|done]. intros [= <-]. by apply IH.
Qed.

(** Members are only ever collected into an object. *)
Lemma parse_members_object : ∀ fuel s acc v r,
  parse_members fuel s acc = Ok (v, r) → ∃ members, v = JObject members.
Proof.
  induction fuel as [|fuel IH]; intros s acc v r; [done|]. simpl.
  repeat (case_match; try done); intros Heq; simplify_eq; eauto.
Qed.

Lemma parse_value_brace fuel s v r :
  head s = Some 123%N → parse_value fuel s = Ok (v, r) →
  ∃ members, v = JObject members.
Proof.
  destruct s as [|c s]; [done|]. intros [= ->].
  destruct fuel as [|fuel]; [done|].
  cbn [parse_value skip_ws]. change (is_ws 123) with false. cbn iota.
  change (123 =? 123)%N with true. cbn iota.
  destruct (skip_ws s) as [|c' r']; [done|].
  destruct (c' =? 125)%N.
  - intros Heq; simplify_eq; eauto.
  - apply parse_members_object.
Qed.

(** X15.  Without a fenced block, a response that holds both braces is
    read from its first opening brace to its last closing one, so the
    parsed value can only be an object: an array or a string at the top
    level is never returned on this path. *)
Theorem brace_span_yields_object text j :
  match_codeBlock text = None →
  123%N ∈ text → 125%N ∈ text →
  extractJson text = inr j →
  ∃ members, j = JObject members.
Proof.
  intros Hno Ho Hc. unfold extractJson, json_source. rewrite Hno.
  destruct (indexOf 123 text) as [f|] eqn:Hf.
  2:{ exfalso. clear -Ho Hf. induction text as [|x text IH]; [by inversion Ho|].
      simpl in Hf. destruct (N.eqb_spec x 123) as [->|Hne]; [done|].
      destruct (indexOf 123 text); [done|]. apply IH; [|done].
      apply elem_of_cons in Ho as [?|?]; [congruence|done]. }
  destruct (lastIndexOf 125 text) as [l|] eqn:Hl.
  2:{ exfalso. clear -Hc Hl. induction text as [|x text IH]; [by inversion Hc|].
      simpl in Hl. destruct (lastIndexOf 125 text); [done|].
      destruct (N.eqb_spec x 125) as [->|Hne]; [done|].
      apply IH; [|done].
      apply elem_of_cons in Hc as [?|?]; [congruence|done]. }
  apply indexOf_lookup in Hf.
  unfold JSON_parse.
  destruct (parse_value _ _) as [[v r]| |] eqn:E; [|done|done].
  destruct (skip_ws r); [|done]. intros [= <-].
  apply (parse_value_brace _ _ _ _) in E; [done|].
  unfold slice.
  destruct (l + 1 - f)%nat as [|n] eqn:Hn.
  { exfalso. unfold slice in E. rewrite Hn in E. by vm_compute in E. }
  by rewrite (drop_S _ _ _ Hf).
Qed.

Lemma brace_span_yields_object_witness :
  extractJson (quoted "[{'steps':[]}]") = inr (JObject [(units "steps", JArray [])])
  ∧ ∃ members,
      JObject [(units "steps", JArray [])] = JObject members.
Proof.
  assert (E : extractJson (quoted "[{'steps':[]}]")
              = inr (JObject [(units "steps", JArray [])]))
    by (vm_compute; reflexivity).
  split; [exact E|].
  apply (brace_span_yields_object (quoted "[{'steps':[]}]")).
  - vm_compute; reflexivity.
  - apply (bool_decide_unpack _). vm_compute. exact I.
  - apply (bool_decide_unpack _). vm_compute. exact I.
  - exact E.
Defined.

End BraceSpanFacts.

(** ** Background analysis job: uploads, merge, cleanup and rows *)

Section PipelineFacts.
Import JsString Json Gemini Analyzer.
Implicit Types (env : AnalyzerEnv) (db : DB) (steps : list json).
Implicit Types (results : list VideoAnalysisResult).

Lemma upload_from_lookup env workflowId : ∀ framePaths i k p,
  framePaths !! k = Some p →
  upload_from env workflowId i framePaths !! k
  = Some (if uploadFrame env (i + k) p
          then Some (publicUrl env workflowId (i + k)) else None).
Proof.
  induction framePaths as [|q rest IH]; intros i [|k] p; try done.
  - intros [= ->]. cbn [upload_from]. by rewrite Nat.add_0_r.
  - intros Hk. cbn [upload_from]. simpl.
    rewrite (IH (S i) k p Hk).
    by replace (S i + k)%nat with (i + S k)%nat by lia.
Qed.

Lemma upload_from_length env workflowId : ∀ framePaths i,
  length (upload_from env workflowId i framePaths) = length framePaths.
Proof.
  induction framePaths as [|q rest IH]; intros i; [done|].
  cbn [upload_from length]. by rewrite IH.
Qed.

(** X16.  The upload loop yields one slot per frame, in frame order: a
    frame whose upload fails leaves an empty slot at its own index and
    the loop goes on with the next frame. *)
Theorem upload_slots_follow_frames env framePaths workflowId :
  let urls := uploadFramesToStorage env framePaths workflowId in
  length urls = length framePaths ∧
  ∀ i p, framePaths !! i = Some p →
    urls !! i = Some (if uploadFrame env i p
                      then Some (publicUrl env workflowId i) else None).
Proof.
  split; [apply upload_from_length|].
  intros i p Hp. unfold uploadFramesToStorage.
  by rewrite (upload_from_lookup _ _ _ 0%nat i p Hp).
Qed.

Lemma string_app_inv_tail (t : string) : ∀ s s' : string,
  s +:+ t = s' +:+ t → s = s'.
Proof.
  assert (Hlen : ∀ a b : string,
            String.length (a +:+ b) = (String.length a + String.length b)%nat).
  { induction a as [|c a IH]; intros b; simpl; [done|]. by rewrite IH. }
  induction s as [|c s IH]; intros [|c' s']; simpl; try done.
  - intros H. apply (f_equal String.length) in H. simpl in H.
    rewrite !Hlen in H. simpl in H. lia.
  - intros H. apply (f_equal String.length) in H. simpl in H.
    rewrite !Hlen in H. simpl in H. lia.
  - intros [= -> H]. f_equal. by apply IH.
Qed.

Lemma publicUrl_inj env workflowId i j :
  publicUrl env workflowId i = publicUrl env workflowId j → i = j.
Proof.
  unfold publicUrl. intros H.
  repeat apply String.app_inj in H.
  apply string_app_inv_tail in H. apply pretty_nat_inj in H. lia.
Qed.

(** X17.  Within one run the public address of a screenshot names its
    frame: two slots that hold the same address are the same slot, so no
    frame of a workflow is stored over another. *)
Theorem screenshot_addresses_are_distinct env framePaths workflowId i j u :
  let urls := uploadFramesToStorage env framePaths workflowId in
  urls !! i = Some (Some u) → urls !! j = Some (Some u) → i = j.
Proof.
  intros urls Hi Hj.
  assert (∀ k, urls !! k = Some (Some u) → u = publicUrl env workflowId k) as Hu.
  { intros k Hk. unfold urls, uploadFramesToStorage in Hk.
    destruct (framePaths !! k) as [p|] eqn:Hp.
    - rewrite (upload_from_lookup _ _ _ 0%nat k p Hp) in Hk. simpl in Hk.
      destruct (uploadFrame env k p); by simplify_eq.
    - apply lookup_ge_None in Hp. apply lookup_lt_Some in Hk.
      rewrite upload_from_length in Hk. lia. }
  apply (publicUrl_inj env workflowId). by rewrite <- (Hu i Hi), <- (Hu j Hj).
Qed.

Lemma screenshot_addresses_are_distinct_witness :
  let urls := uploadFramesToStorage example_env example_frames 7 in
  let u := "https://p.supabase.co/storage/v1/object/public/work-videos/"
           +:+ "screenshots/7/workflow_7_step_3.jpg" in
  urls !! 2%nat = Some (Some u) ∧ 2%nat = 2%nat.
Proof.
  intros urls u.
  assert (H : urls !! 2%nat = Some (Some u)) by (vm_compute; reflexivity).
  split; [exact H|].
  exact (screenshot_addresses_are_distinct example_env example_frames 7
           2%nat 2%nat u H H).
Defined.

Lemma map_steps_null valid : ∀ steps index,
  JNull ∈ steps →
  map_steps valid index steps
  = inl (Error "Cannot read properties of null (reading 'type')").
Proof.
  induction steps as [|s steps IH]; intros index Hin; [by inversion Hin|].
  cbn [map_steps].
  apply elem_of_cons in Hin as [<-|Hin]; [done|].
  rewrite (IH (S index) Hin). by destruct s.
Qed.

Lemma map_steps_fields valid : ∀ steps index,
  JNull ∉ steps →
  ∃ results,
    map_steps valid index steps = inr results ∧
    length results = length steps ∧
    ∀ i s, steps !! i = Some s →
      results !! i
      = Some (mkResult (property "type" s) (property "action" s)
                       (property "description" s) (property "confidence" s)
                       (valid !! (index + i)%nat)).
Proof.
  induction steps as [|s steps IH]; intros index Hnot.
  - exists []. by repeat split.
  - apply not_elem_of_cons in Hnot as [Hs Hnot].
    destruct (IH (S index) Hnot) as (rs & Hrs & Hlen & Hnth).
    exists (mkResult (property "type" s) (property "action" s)
                     (property "description" s) (property "confidence" s)
                     (valid !! index) :: rs).
    split; [|split].
    + cbn [map_steps]. rewrite Hrs. by destruct s.
    + simpl. by rewrite Hlen.
    + intros [|i] s'.
      * intros [= <-]. simpl. by rewrite Nat.add_0_r.
      * intros Hi. simpl. rewrite (Hnth i s' Hi).
        by replace (S index + i)%nat with (index + S i)%nat by lia.
Qed.

(** X18.  The merge reads the four fields off every step, whatever kind
    of value the step is, and fails exactly when some step is [null];
    the model call accepts such a list, since it only checks that
    [steps] is an array. *)
Theorem merge_fails_exactly_on_null_step steps screenshotUrls :
  (JNull ∈ steps →
   merge steps screenshotUrls
   = inl (Error "Cannot read properties of null (reading 'type')"))
  ∧ (JNull ∉ steps →
     ∃ results,
       merge steps screenshotUrls = inr results ∧
       length results = length steps ∧
       ∀ i s, steps !! i = Some s →
         results !! i
         = Some (mkResult (property "type" s) (property "action" s)
                          (property "description" s) (property "confidence" s)
                          (validUrls screenshotUrls !! i))).
Proof.
  unfold merge. split.
  - apply map_steps_null.
  - intros Hnot. apply (map_steps_fields _ _ 0%nat Hnot).
Qed.

Lemma merge_fails_exactly_on_null_step_witness :
  attempt (inr (quoted "{'steps':[{'type':'click'},null]}"))
  = inr [JObject [(units "type", JString (units "click"))]; JNull]
  ∧ merge [JObject [(units "type", JString (units "click"))]; JNull] []
    = inl (Error "Cannot read properties of null (reading 'type')")
  ∧ ∃ results,
      merge [JString (units "click"); JNumber (units "1")] [Some "u"]
      = inr results ∧ length results = 2%nat.
Proof.
  split; [vm_compute; reflexivity|]. split.
  - apply (proj1 (merge_fails_exactly_on_null_step _ _)).
    apply elem_of_cons. right. apply elem_of_cons. by left.
  - destruct (proj2 (merge_fails_exactly_on_null_step
                       [JString (units "click"); JNumber (units "1")]
                       [Some "u"]))
      as (results & H1 & H2 & _).
    + intros H. repeat (apply elem_of_cons in H as [H|H]; [discriminate|]).
      by apply elem_of_nil in H.
    + by exists results.
Defined.

(** X19.  The temporary files are removed on every path: nothing is
    removed when the download fails, the video alone when the frames
    cannot be extracted, and otherwise the frames and then the video,
    once each and after the last model event, whether the analysis
    returned or threw. *)
Theorem cleanup_runs_on_every_path env sp workflowId :
  sp ≠ EmptyString →
  let evs := (performAIAnalysis env (Some sp) workflowId).1 in
  match fetchVideo env sp with
  | inl _ => evs = []
  | inr file =>
      match extractFrames env file 10 with
      | inl _ => evs = [CleanupVideo]
      | inr paths =>
          ∃ mevs, evs = (Model <$> mevs) ++ [CleanupFrames; CleanupVideo]
      end
  end.
Proof.
  intros Hsp. unfold performAIAnalysis, downloadVideoFromSupabase.
  destruct sp as [|c sp]; [done|].
  rewrite bool_decide_eq_false_2 by done.
  destruct (fetchVideo env (String c sp)) as [e|file]; [done|].
  destruct (extractFrames env file 10) as [e|[|p paths]]; [done| |].
  - by exists [].
  - destruct (analyzeFramesWithGemini _ _ _ _) as [mevs [e|steps]].
    + exists mevs. simpl. by rewrite <- app_assoc.
    + exists mevs. simpl. rewrite <- app_assoc. by destruct (merge _ _).
Qed.

Lemma cleanup_runs_on_every_path_witness :
  ∃ mevs,
    (performAIAnalysis example_env (Some "videos/a.mp4") 7).1
    = (Model <$> mevs) ++ [CleanupFrames; CleanupVideo].
Proof.
  exact (cleanup_runs_on_every_path example_env "videos/a.mp4" 7
           ltac:(discriminate)).
Defined.

(** X20.  Whatever goes wrong in the analysis, the value thrown is a
    plain [Error] without a [status]: either the complaint about the
    missing path, or the message of the cause behind the fixed prefix.
    A status carried by the cause, as by a model failure, is lost. *)
Theorem analysis_failures_are_wrapped env storagePath workflowId e :
  (performAIAnalysis env storagePath workflowId).2 = inl e →
  instanceof_Error e = true ∧ status e = None ∧
  ((storagePath = None ∨ storagePath = Some EmptyString) ∧
   message e = "비디오 저장 경로가 없습니다. 분석을 진행할 수 없습니다."
   ∨ ∃ cause, message e = "AI 분석 실패: " +:+ cause).
Proof.
  destruct storagePath as [[|c sp]|].
  - intros [= <-]. repeat split. left. split; [by right|done].
  - rewrite performAIAnalysis_stages by done.
    intros H.
    assert (∃ err, e = wrap err) as [err ->].
    { repeat (case_match; simplify_eq; eauto). }
    repeat split. right. by eexists.
  - intros [= <-]. repeat split. left. split; [by left|done].
Qed.

Lemma analysis_failures_are_wrapped_witness :
  let busy := mkThrown true "The model is overloaded" (Some 503) in
  let env := mkEnv (mkGeminiEnv (Some "key") (λ _, None) (λ _ _, inl busy))
               default_models_b "https://p.supabase.co"
               (λ _, inr "/tmp/video-1/a.mp4") (λ _ _, inr example_frames)
               (λ _ _, true) (λ _, None) (λ _, 0) in
  ∃ e, (performAIAnalysis env (Some "videos/a.mp4") 7).2 = inl e ∧
       message e = "AI 분석 실패: The model is overloaded" ∧ status e = None.
Proof.
  intros busy env.
  assert (E : (performAIAnalysis env (Some "videos/a.mp4") 7).2
              = inl (Error "AI 분석 실패: The model is overloaded"))
    by (vm_compute; reflexivity).
  destruct (analysis_failures_are_wrapped env _ 7 _ E) as (_ & Hs & _).
  eexists. split; [exact E|]. split; [reflexivity|exact Hs].
Defined.

(** What a write of the job leaves alone. *)
Lemma update_video_frame videoId f db :
  (∀ vid, vid ≠ videoId →
     workVideos (update_video videoId f db) !! vid = workVideos db !! vid)
  ∧ workWorkflows (update_video videoId f db) = workWorkflows db
  ∧ workAnalysisSteps (update_video videoId f db) = workAnalysisSteps db.
Proof.
  repeat split. intros vid Hne. unfold update_video. simpl.
  by rewrite lookup_alter_ne.
Qed.

Lemma update_workflow_frame workflowId f db :
  workVideos (update_workflow workflowId f db) = workVideos db
  ∧ (∀ wid, wid ≠ workflowId →
       workWorkflows (update_workflow workflowId f db) !! wid
       = workWorkflows db !! wid)
  ∧ workAnalysisSteps (update_workflow workflowId f db) = workAnalysisSteps db.
Proof.
  repeat split. intros wid Hne. unfold update_workflow. simpl.
  by rewrite lookup_alter_ne.
Qed.

Lemma fail_job_frame videoId workflowId e db d :
  d ∈ fail_job videoId workflowId e db →
  (∀ vid, vid ≠ videoId → workVideos d !! vid = workVideos db !! vid)
  ∧ (∀ wid, wid ≠ workflowId →
       workWorkflows d !! wid = workWorkflows db !! wid)
  ∧ workAnalysisSteps d = workAnalysisSteps db.
Proof.
  unfold fail_job. rewrite !elem_of_cons, elem_of_nil.
  intros [->|[->|[]]]; repeat split; try done; intros k Hk;
    unfold update_video, update_workflow; simpl;
    by rewrite ?lookup_alter_ne.
Qed.

(** X21.  A job writes to its own video row and its own workflow row
    only, and only adds step rows: in every state it goes through, the
    other videos and workflows are as before and the rows stored before,
    those of the same workflow included, are still there in front of
    any new ones. *)
Theorem job_touches_only_its_rows env videoId workflowId db d :
  d ∈ analyzeVideoInBackground env videoId workflowId db →
  (∀ vid, vid ≠ videoId → workVideos d !! vid = workVideos db !! vid)
  ∧ (∀ wid, wid ≠ workflowId →
       workWorkflows d !! wid = workWorkflows db !! wid)
  ∧ workAnalysisSteps db `prefix_of` workAnalysisSteps d.
Proof.
  unfold analyzeVideoInBackground.
  set (db1 := update_video videoId _ db).
  destruct (update_video_frame videoId
              (λ v, mkVideo processing 10 (storage_path v) (error_message v)
                      (video_completed_at v)) db) as (V1 & W1 & S1).
  fold db1 in V1, W1, S1.
  assert (Hfail : ∀ e, d ∈ db1 :: fail_job videoId workflowId e db1 →
    (∀ vid, vid ≠ videoId → workVideos d !! vid = workVideos db !! vid)
    ∧ (∀ wid, wid ≠ workflowId →
         workWorkflows d !! wid = workWorkflows db !! wid)
    ∧ workAnalysisSteps db `prefix_of` workAnalysisSteps d).
  { intros e [->|Hd]%elem_of_cons.
    - split; [done|]. split; [intros; by rewrite W1|]. by rewrite S1.
    - apply fail_job_frame in Hd as (V & W & S).
      split; [intros vid Hne; by rewrite V, V1|].
      split; [intros wid Hne; by rewrite W, W1|]. by rewrite S, S1. }
  set (outcome := match workVideos db1 !! videoId with
                  | Some video => _ | None => _ end).
  destruct outcome as [e|steps]; [by apply Hfail|].
  destruct (insertRows env steps) as [e|]; [by apply Hfail|].
  rewrite !elem_of_cons, elem_of_nil.
  intros [->|[->|[->|[->|[]]]]];
    (split; [intros vid Hne|split; [intros wid Hne|]]); simpl;
    rewrite ?lookup_alter_ne by done; rewrite ?W1, ?S1;
    auto using prefix_app_r.
Qed.

Lemma job_touches_only_its_rows_witness :
  let other := mkVideo uploaded 0 (Some "videos/b.mp4") None None in
  let old := mkRow 7 1 None None None None None None None in
  let db := mkDB (<[4 := other]> (workVideos example_db))
                 (workWorkflows example_db) [old] in
  ∃ final,
    last (analyzeVideoInBackground example_env 3 7 db) = Some final ∧
    workVideos final !! 4 = Some other ∧
    [old] `prefix_of` workAnalysisSteps final.
Proof.
  intros other old db.
  destruct (last (analyzeVideoInBackground example_env 3 7 db))
    as [final|] eqn:E; [|by vm_compute in E].
  exists final. split; [done|].
  assert (Hd : final ∈ analyzeVideoInBackground example_env 3 7 db).
  { apply last_Some in E as [l' ->]. apply elem_of_app. right.
    apply elem_of_cons. by left. }
  destruct (job_touches_only_its_rows example_env 3 7 db final Hd)
    as (V & _ & S).
  split; [|exact S]. by rewrite (V 4 ltac:(lia)).
Defined.



Lemma rows_of_lookup workflowId results i r :
  results !! i = Some r →
  rows_of workflowId results !! i
  = Some (mkRow workflowId (Z.of_nat i + 1) (type r) (action r)
                (description r) None None (confidence r) (screenshot_url r)).
Proof. intros Hr. unfold rows_of. by rewrite list_lookup_imap, Hr. Qed.

(** X23.  What a successful job stores is what the model said: one row
    per step, in order, numbered from 1 whatever the table held before,
    with the four fields read off the step, no timestamp, and as
    screenshot the address found at the step's index among the uploads
    that succeeded. *)
Theorem rows_carry_model_steps env workflowId v rows :
  job_outcome env workflowId v = inr rows →
  ∃ sp file paths steps,
    storage_path v = Some sp ∧ fetchVideo env sp = inr file ∧
    extractFrames env file 10 = inr paths ∧
    (analyzeFramesWithGemini (default_models env) (gemini env)
       paths None).2 = inr steps ∧
    length rows = length steps ∧
    ∀ i s, steps !! i = Some s →
      rows !! i
      = Some (mkRow workflowId (Z.of_nat i + 1)
                (property "type" s) (property "action" s)
                (property "description" s) None None
                (property "confidence" s)
                (validUrls (uploadFramesToStorage env paths workflowId) !! i)).
Proof.
  unfold job_outcome.
  destruct (performAIAnalysis env (storage_path v) workflowId)
    as [evs [e|results]] eqn:E; [done|].
  destruct (insertRows env (rows_of workflowId results)); [done|].
  intros [= <-].
  destruct (storage_path v) as [[|c sp]|] eqn:Hsp; [done| |done].
  apply (f_equal snd) in E. cbn [snd] in E.
  rewrite performAIAnalysis_stages in E by done.
  destruct (fetchVideo env (String c sp)) as [e|file] eqn:Hf; [done|].
  destruct (extractFrames env file 10) as [e|[|p paths]] eqn:Hx; [done|done|].
  destruct (analyzeFramesWithGemini _ _ _ _).2 as [e|steps] eqn:Ha; [done|].
  destruct (merge steps _) as [e|res] eqn:Hm; [done|]. injection E as ->.
  exists (String c sp), file, (p :: paths), steps.
  repeat split; try done.
  - unfold rows_of. rewrite length_imap.
    unfold merge in Hm. by apply map_steps_spec in Hm as [Hlen _].
  - intros i s Hs.
    assert (Hnot : JNull ∉ steps).
    { intros Hin. unfold merge in Hm. by rewrite map_steps_null in Hm. }
    destruct (map_steps_fields
                (validUrls (uploadFramesToStorage env (p :: paths) workflowId))
                steps 0%nat Hnot) as (res' & Hres & _ & Hnth).
    unfold merge in Hm. rewrite Hm in Hres. injection Hres as <-.
    by rewrite (rows_of_lookup _ _ _ _ (Hnth i s Hs)).
Qed.

Lemma rows_carry_model_steps_witness :
  let base := "https://p.supabase.co/storage/v1/object/public/work-videos/"
              +:+ "screenshots/7/" in
  ∃ rows,
    job_outcome example_env 7 (mkVideo uploaded 0 (Some "videos/a.mp4") None None)
    = inr rows ∧
    length rows = 3%nat ∧
    rows !! 1%nat
    = Some (mkRow 7 2 (Some (JString (units "input")))
              (Some (JString (units "Type name"))) None None None
              (Some (JNumber (units "90")))
              (Some (base +:+ "workflow_7_step_3.jpg"))).
Proof.
  intros base.
  destruct (job_outcome example_env 7
              (mkVideo uploaded 0 (Some "videos/a.mp4") None None))
    as [e|rows] eqn:E; [by vm_compute in E|].
  exists rows. split; [done|].
  destruct (rows_carry_model_steps _ _ _ _ E)
    as (sp & file & paths & steps & Hsp & Hf & Hx & Ha & Hlen & Hrows).
  simpl in Hsp, Hf, Hx. simplify_eq.
  assert (Hsteps : steps = example_steps).
  { assert (Ha' : (analyzeFramesWithGemini (default_models example_env)
                     (gemini example_env) example_frames None).2
                  = inr example_steps) by (vm_compute; reflexivity).
    rewrite Ha' in Ha. by injection Ha. }
  subst steps. split; [exact Hlen|].
  assert (Hs : example_steps !! 1%nat
               = Some (JObject [(units "type", JString (units "input"));
                                (units "action", JString (units "Type name"));
                                (units "confidence", JNumber (units "90"))]))
    by (vm_compute; reflexivity).
  rewrite (Hrows _ _ Hs). vm_compute. reflexivity.
Defined.

End PipelineFacts.

(** ** The temporary file of a download *)

Section StorageFacts.
Import JsString Storage.

Lemma units_app (s t : string) : units (s +:+ t) = units s ++ units t.
Proof.
  unfold units. induction s as [|c s IH]; simpl; [done|]. by rewrite IH.
Qed.

Lemma pretty_N_char_safe x : safe (Ascii.N_of_ascii (pretty_N_char x)) = true.
Proof.
  unfold pretty_N_char. by repeat case_match.
Qed.

Lemma pretty_N_go_safe x : ∀ s,
  Forall (λ c, safe c = true) (units s) →
  Forall (λ c, safe c = true) (units (pretty_N_go x s)).
Proof.
  induction (N.lt_wf_0 x) as [x _ IH]; intros s Hs.
  assert (x = 0 ∨ 0 < x)%N as [->|Hx] by lia.
  - by rewrite pretty_N_go_0.
  - rewrite pretty_N_go_step by done. apply IH.
    { by apply N.div_lt. }
    apply Forall_cons. split; [apply pretty_N_char_safe|done].
Qed.

Lemma pretty_Z_safe now :
  0 ≤ now → Forall (λ c, safe c = true) (units (pretty now)).
Proof.
  intros Hnow. destruct now as [|p|p]; [by repeat constructor| |lia].
  unfold pretty, pretty_Z, pretty, pretty_positive, pretty, pretty_N.
  rewrite decide_False by done. by apply pretty_N_go_safe.
Qed.

Lemma sanitize_safe base : Forall (λ c, safe c = true) (sanitize base).
Proof.
  unfold sanitize. apply Forall_fmap, Forall_true. intros c. simpl.
  by destruct (safe c) eqn:E.
Qed.

(** X24.  The name of the temporary file is never empty and holds only
    letters, digits, dots, underscores and hyphens, so no separator; a
    base name that is not empty keeps its length, and one that is
    already in that alphabet is kept as it is. *)
Theorem temp_file_name_is_safe base now :
  0 ≤ now →
  tempFileName base now ≠ []
  ∧ Forall (λ c, safe c = true) (tempFileName base now)
  ∧ (base ≠ [] → length (tempFileName base now) = length base)
  ∧ (base ≠ [] → Forall (λ c, safe c = true) base →
     tempFileName base now = base).
Proof.
  intros Hnow. unfold tempFileName.
  destruct base as [|c base].
  - cbn [sanitize map]. rewrite !units_app. split; [done|].
    split; [|done]. rewrite !Forall_app. repeat split.
    + by repeat constructor.
    + by apply pretty_Z_safe.
    + by repeat constructor.
  - pose proof (sanitize_safe (c :: base)) as Hs.
    assert (Hlen : length (sanitize (c :: base)) = length (c :: base))
      by apply length_map.
    destruct (sanitize (c :: base)) as [|d rest] eqn:E; [done|].
    split; [done|]. split; [done|]. split; [done|].
    intros _ Hsafe. rewrite <- E. unfold sanitize.
    clear -Hsafe. induction Hsafe as [|x l Hx Hl IH]; [done|].
    cbn [map]. by rewrite Hx, IH.
Qed.

Lemma temp_file_name_is_safe_witness :
  tempFileName (units "my video (1).mp4") 1700000000000
  = units "my_video__1_.mp4"
  ∧ tempFileName [] 1700000000000 = units "video_1700000000000.mp4"
  ∧ Forall (λ c, safe c = true) (tempFileName [] 1700000000000).
Proof.
  split; [vm_compute; reflexivity|]. split; [vm_compute; reflexivity|].
  exact (proj1 (proj2 (temp_file_name_is_safe [] 1700000000000
                         ltac:(lia)))).
Defined.

End StorageFacts.
